(** * jobline: a shallow embedding of [src/index.ts]

    The module keeps two name-keyed registries (jobs and job lines), resolves
    the arguments of every step of a line ([buildJobArgs]), runs one job
    ([executeOneJob]) and runs a whole line, step after step
    ([executeJobLine]).

    Modelling choices.
    - A JavaScript value ([any]) is [undefined], [null], a boolean, an
      integer (numbers are only used as array positions here), a string, a
      plain object (own data properties, prototype [Object.prototype]) or a
      built-in object or function, by its name.
    - A [Record<string, any>] (arguments, context) is a plain object: a
      finite map from strings to values for its own properties, a key being
      possibly present with the value [undefined].  A read [r[k]] gives the
      own property, else what [Object.prototype] provides under that name.
    - What [v[k]] gives when [v] is not a plain object (a string, a number,
      [true], a built-in) is decided by the prototypes of the runtime, which
      are not part of the repository: it is a parameter, [builtin_get].
    - An assignment [r[k] = v] to a fresh object is an insertion in the map.
      This is what JavaScript does for every name but [__proto__], whose
      assignment goes to the setter of [Object.prototype]; statements about
      the keys written say where that name is left out.
    - A JavaScript array of journals is a list whose cells may be holes.
    - An executor is a function of the context and the arguments it receives;
      what it does is summed up by an [Execution]: the context as it leaves it,
      whether it called [done()], and whether it returned or threw.  Executors
      are taken not to touch the registries or their argument object.
    - [console.log] and [chalk] are left out. *)

From Stdlib Require Import ZArith.
From stdpp Require Import gmap strings list fin_maps.

Local Open Scope Z_scope.
Local Set Warnings "-clear-no-such-hyp".

(** ** Values *)

#[warnings="-register-all"]
Inductive value : Type :=
| VUndefined
| VNull
| VBool (b : bool)
| VNum (n : Z)
| VStr (s : string)
| VObj (props : list (string * value))   (* a plain object, by its own properties *)
| VNative (name : string).               (* a built-in object or function *)

(** [Record<string, any>] and [JobContext]. *)
Abbreviation AnyRecord := (gmap string value).
Abbreviation JobContext := (gmap string value).
Abbreviation JobName := string.

(** JavaScript truthiness, as used by [if (x)]. *)
Definition truthy (v : value) : bool :=
  match v with
  | VUndefined | VNull => false
  | VBool b => b
  | VNum n => negb (n =? 0)
  | VStr s => negb (String.eqb s EmptyString)
  | VObj _ | VNative _ => true
  end.

(** The own property [k] of a plain object, if it has one. *)
Fixpoint own_prop (k : string) (props : list (string * value)) : option value :=
  match props with
  | [] => None
  | (k', v) :: rest => if String.eqb k k' then Some v else own_prop k rest
  end.

(** The property names of [Object.prototype]. *)
Definition object_prototype_names : list string :=
  ["constructor"%string; "__defineGetter__"%string; "__defineSetter__"%string;
   "hasOwnProperty"%string; "__lookupGetter__"%string; "__lookupSetter__"%string;
   "isPrototypeOf"%string; "propertyIsEnumerable"%string; "toString"%string;
   "valueOf"%string; "__proto__"%string; "toLocaleString"%string].

(** What a plain object inherits under the name [k]: the built-in of that
    name ([constructor] is [Object], [__proto__] reads the prototype
    itself), and [undefined] for every other name. *)
Definition object_prototype (k : string) : value :=
  if bool_decide (k ∈ object_prototype_names) then
    if String.eqb k "constructor" then VNative "Object"
    else if String.eqb k "__proto__" then VNative "Object.prototype"
    else VNative (String.append "Object.prototype." k)
  else VUndefined.

(** What the runtime gives for [v[k]] when [v] is a value other than a plain
    object: the prototypes of strings, numbers, booleans and built-ins come
    with the JavaScript engine, not with the repository. *)
Class Runtime : Type := builtin_get : value → string → value.

(** [v[k]] for a value [v] that passed a truthiness test. *)
Definition prop_get {R : Runtime} (v : value) (k : string) : value :=
  match v with
  | VObj props =>
      match own_prop k props with
      | Some own => own
      | None => object_prototype k
      end
  | _ => builtin_get v k
  end.

(** [r[k]] for a record [r]. *)
Definition record_get (r : AnyRecord) (k : string) : value :=
  match r !! k with
  | Some own => own
  | None => object_prototype k
  end.

Definition is_undefined (v : value) : bool :=
  match v with VUndefined => true | _ => false end.

(** ** Arrays with holes *)

Section Arrays.
Context {A : Type}.

(** [a[i]]: [None] for a negative position, a position past the end, or a
    hole. *)
Definition array_get (a : list (option A)) (i : Z) : option A :=
  if i <? 0 then None else mjoin (a !! Z.to_nat i).

(** [a[i] = x]: JavaScript extends the array with holes when needed. *)
Definition array_set (a : list (option A)) (i : nat) (x : A) : list (option A) :=
  if bool_decide (i < length a)%nat
  then <[i := Some x]> a
  else a ++ replicate (i - length a) None ++ [Some x].

End Arrays.

(** ** Data model *)

Inductive Status : Type := Pending | Exception | Done.

Global Instance Status_eq_dec : EqDecision Status.
Proof. solve_decision. Defined.

Inductive Settled : Type :=
| Fulfilled (output : value)
| Rejected (err : value).

(** What one call of an executor does. *)
Record Execution : Type := {
  exec_ctx : JobContext;      (* the context object after the call *)
  exec_done : bool;           (* [done()] was called *)
  exec_settled : Settled;     (* returned (or resolved) / threw (or rejected) *)
}.

Definition JobExecutor : Type := JobContext → AnyRecord → Execution.

Record Job : Type := {
  job_name : JobName;
  job_label : option string;
  job_desc : option string;
  job_args : option (list string);
  job_executor : JobExecutor;
}.

(** One entry of [JobLineStep.args], by the shape of the tuple. *)
Inductive ArgSpec : Type :=
| Literal (argKey : string) (v : value)                  (* [key, v] *)
| FromExternal (argKey : string) (k : string)            (* [key, 'external', k] *)
| FromPreviousStep (argKey : string) (k : string)        (* [key, PREVIOUS_STEP, k] *)
| FromStepAt (argKey : string) (type : Z) (k : string)   (* [key, n, k] *)
| FromSymbol (argKey : string) (k : string).             (* [key, another symbol, k] *)

Definition arg_key (arg : ArgSpec) : string :=
  match arg with
  | Literal argKey _ | FromExternal argKey _ | FromPreviousStep argKey _
  | FromStepAt argKey _ _ | FromSymbol argKey _ => argKey
  end.

Record JobLineStep : Type := {
  step_name : JobName;
  step_inheritable : option bool;
  step_args : option (list ArgSpec);
}.

Record JobLine : Type := {
  line_name : string;
  line_args : option (list string);
  line_steps : list JobLineStep;
}.

Record JobJournal : Type := {
  jj_name : JobName;
  jj_input : AnyRecord;
  jj_output : value;
  jj_status : option Status;
}.

Record JobLineJournal : Type := {
  jlj_name : string;
  jlj_input : AnyRecord;
  jlj_status : option Status;
  jlj_steps : list (option JobJournal);
}.

(** An executor call as it happened: which job, the context and arguments the
    executor received, and what it did.  Not a value of the source; it is
    kept so that statements can speak of the executors that ran. *)
Record Invocation : Type := {
  inv_job : JobName;
  inv_ctx : JobContext;
  inv_args : AnyRecord;
  inv_run : Execution;
}.

Record JobExecuteResult : Type := {
  res_output : value;
  res_ctx : JobContext;
  res_journal : JobJournal;
  res_done : bool;
  res_call : Invocation;   (* ghost *)
}.

(** ** Errors and outcomes *)

Inductive Error : Type :=
| JobExists (name : JobName)          (* `job ${name} 已存在` *)
| JobLineExists (name : string)       (* `jobLine ${name} 已存在` *)
| JobMissing (name : JobName)         (* `任务 ${step.name} 不存在` *)
| TypeError.                          (* a property read off [undefined] *)

Inductive ExitReason : Type :=
| LineMissing
| ArgsMissing (lackedArgs : list string).

Inductive Outcome (A : Type) : Type :=
| Returned (a : A)
| Threw (e : Error)
| Exited (why : ExitReason).   (* [process.exit()] *)

Arguments Returned {A} a.
Arguments Threw {A} e.
Arguments Exited {A} why.

(** ** Registries *)

(** The two module-level maps. *)
Record Registry : Type := {
  jobs : gmap JobName Job;
  jobLines : gmap string JobLine;
}.

Definition empty_registry : Registry := {| jobs := ∅; jobLines := ∅ |}.

(** [registerJob(job)]; [None] is a null or absent argument. *)
Definition registerJob (job : option Job) (reg : Registry) : Outcome unit * Registry :=
  match job with
  | None => (Returned (), reg)
  | Some job =>
      let name := job_name job in
      match jobs reg !! name with
      | Some _ => (Threw (JobExists name), reg)
      | None => (Returned (), {| jobs := <[name := job]> (jobs reg); jobLines := jobLines reg |})
      end
  end.

Definition registerJobLine (jobLine : option JobLine) (reg : Registry) : Outcome unit * Registry :=
  match jobLine with
  | None => (Returned (), reg)
  | Some jobLine =>
      let name := line_name jobLine in
      match jobLines reg !! name with
      | Some _ => (Threw (JobLineExists name), reg)
      | None => (Returned (), {| jobs := jobs reg; jobLines := <[name := jobLine]> (jobLines reg) |})
      end
  end.

(** ** executeOneJob *)

Definition set_output_status (j : JobJournal) (o : value) (s : Status) : JobJournal :=
  {| jj_name := jj_name j; jj_input := jj_input j; jj_output := o; jj_status := Some s |}.

Definition set_status (j : JobJournal) (s : Status) : JobJournal :=
  {| jj_name := jj_name j; jj_input := jj_input j; jj_output := jj_output j; jj_status := Some s |}.

Definition executeOneJob (job : Job) (ctx : option JobContext) (args : AnyRecord)
    (journal : option JobJournal) : JobExecuteResult :=
  let jobJournal :=
    match journal with
    | Some journal => journal
    | None => {| jj_name := job_name job; jj_input := args;
                 jj_output := VNull; jj_status := Some Pending |}
    end in
  let jobContext :=
    match ctx with
    | Some ctx => ctx
    | None => ∅
    end in
  let run := job_executor job jobContext args in
  let call := {| inv_job := job_name job; inv_ctx := jobContext;
                 inv_args := args; inv_run := run |} in
  match exec_settled run with
  | Fulfilled jobOutput =>
      {| res_ctx := exec_ctx run;
         res_journal := set_output_status jobJournal jobOutput Done;
         res_output := jobOutput;
         res_done := exec_done run;
         res_call := call |}
  | Rejected _ =>
      {| res_ctx := exec_ctx run;
         res_journal := set_status jobJournal Exception;
         res_output := VUndefined;
         res_done := exec_done run;
         res_call := call |}
  end.

(** ** buildJobArgs *)

Record BuildOptions : Type := {
  opt_external : option AnyRecord;
  opt_previous : value;
  opt_steps : list (option JobJournal);
  opt_index : Z;
}.

(** The pair [res], [assignedArgs] the function builds up. *)
Definition Assigned : Type := AnyRecord * list string.

(** [res[argKey] = v; assignedArgs.push(argKey)] *)
Definition assign (argKey : string) (v : value) (acc : Assigned) : Assigned :=
  (<[argKey := v]> acc.1, acc.2 ++ [argKey]).

(** The output the [typeof type === 'number'] branch reads. *)
Definition step_output (options : BuildOptions) (type : Z) : value :=
  if type <? 0 then
    match array_get (opt_steps options) (opt_index options + type) with
    | Some journal => jj_output journal
    | None => VUndefined
    end
  else
    match array_get (opt_steps options) type with
    | Some journal => jj_output journal
    | None => VUndefined
    end.

(** The callback of [args.forEach]. *)
Definition resolve_arg {R : Runtime} (jobArgs : list string) (options : BuildOptions)
    (acc : Assigned) (arg : ArgSpec) : Assigned :=
  if bool_decide (arg_key arg ∈ jobArgs) then
    match arg with
    | Literal argKey v => assign argKey v acc
    | FromExternal argKey k =>
        match opt_external options with
        | Some external => assign argKey (record_get external k) acc
        | None => acc
        end
    | FromPreviousStep argKey k =>
        if truthy (opt_previous options)
        then assign argKey (prop_get (opt_previous options) k) acc
        else acc
    | FromStepAt argKey type k =>
        let stepOutput := step_output options type in
        if truthy stepOutput
        then assign argKey (prop_get stepOutput k) acc
        else acc
    | FromSymbol _ _ => acc
    end
  else acc.

(** The state after [args.forEach(...)]. *)
Definition explicit_args {R : Runtime} (args : list ArgSpec) (jobArgs : list string)
    (options : BuildOptions) : Assigned :=
  fold_left (resolve_arg jobArgs options) args (∅, []).

(** The callback of [jobArgs.forEach] (same-name fallback). *)
Definition fallback_arg (external : AnyRecord) (assignedArgs : list string)
    (res : AnyRecord) (jobArg : string) : AnyRecord :=
  if bool_decide (jobArg ∈ assignedArgs) then res
  else <[jobArg := record_get external jobArg]> res.

Definition buildJobArgs {R : Runtime} (args : option (list ArgSpec))
    (jobArgs : option (list string))
    (options : BuildOptions) : AnyRecord :=
  match args, jobArgs with
  | Some args, Some jobArgs =>
      let '(res, assignedArgs) := explicit_args args jobArgs options in
      match opt_external options with
      | Some external =>
          if (length assignedArgs <? length jobArgs)%nat
          then fold_left (fallback_arg external assignedArgs) jobArgs res
          else res
      | None => res
      end
  | _, _ => ∅
  end.

(** ** executeJobLine *)

Record Options : Type := {
  opts_args : option AnyRecord;
  opts_previousJobLineJournal : option JobLineJournal;
}.

(** The first argument: a name to look up, or the line itself. *)
Inductive LineRef : Type :=
| ByName (jobLineName : string)
| ByValue (jobLine : JobLine).

(** [options?.args![argKey]]: [undefined] without [options]; a [TypeError]
    with [options] but without [options.args]. *)
Definition option_arg (options : option Options) (argKey : string) : Outcome value :=
  match options with
  | None => Returned VUndefined
  | Some o =>
      match opts_args o with
      | None => Threw TypeError
      | Some args => Returned (record_get args argKey)
      end
  end.

(** [jobLine.args.forEach(...)], filling [externalArgs] and [lackedArgs]. *)
Fixpoint collect_args (options : option Options) (argKeys : list string)
    (externalArgs : AnyRecord) (lackedArgs : list string)
    : Outcome (AnyRecord * list string) :=
  match argKeys with
  | [] => Returned (externalArgs, lackedArgs)
  | argKey :: rest =>
      match option_arg options argKey with
      | Returned value =>
          if is_undefined value
          then collect_args options rest externalArgs (lackedArgs ++ [argKey])
          else collect_args options rest (<[argKey := value]> externalArgs) lackedArgs
      | Threw e => Threw e
      | Exited why => Exited why
      end
  end.

Definition external_args (jobLine : JobLine) (options : option Options) : Outcome AnyRecord :=
  match line_args jobLine with
  | None => Returned ∅
  | Some argKeys =>
      match collect_args options argKeys ∅ [] with
      | Returned (externalArgs, lackedArgs) =>
          if (0 <? length lackedArgs)%nat
          then Exited (ArgsMissing lackedArgs)
          else Returned externalArgs
      | Threw e => Threw e
      | Exited why => Exited why
      end
  end.

(** The variables the loop works on.  [previousContext] is declared before
    the loop and read in it; no statement of the source assigns it. *)
Record LoopState : Type := {
  jobLineJournal : JobLineJournal;
  previousContext : option JobContext;
  invoked : list Invocation;   (* ghost: the executor calls so far *)
}.

Inductive Flow : Type :=
| Continue (st : LoopState)
| Break (st : LoopState)
| Throw (e : Error) (st : LoopState).

(** [jobLineJournal.steps[index] = journal] *)
Definition store_step (j : JobLineJournal) (index : nat) (journal : JobJournal) : JobLineJournal :=
  {| jlj_name := jlj_name j; jlj_input := jlj_input j; jlj_status := jlj_status j;
     jlj_steps := array_set (jlj_steps j) index journal |}.

(** [jobLineJournal.status = status] *)
Definition store_status (j : JobLineJournal) (status : option Status) : JobLineJournal :=
  {| jlj_name := jlj_name j; jlj_input := jlj_input j; jlj_status := status;
     jlj_steps := jlj_steps j |}.

(** [previousJournal && previousJournal.status === 'done'] *)
Definition already_done (previousJournal : option JobJournal) : bool :=
  match previousJournal with
  | Some journal => bool_decide (jj_status journal = Some Done)
  | None => false
  end.

(** [(steps[steps.length - 1] || {}).output] *)
Definition last_output (steps : list (option JobJournal)) : value :=
  match array_get steps (Z.of_nat (length steps) - 1) with
  | Some journal => jj_output journal
  | None => VUndefined
  end.

(** [step.inheritable !== false ? previousContext : null] *)
Definition context_for (step : JobLineStep) (previousContext : option JobContext)
    : option JobContext :=
  match step_inheritable step with
  | Some false => None
  | _ => previousContext
  end.

(** One turn of the [for] loop. *)
Definition loop_body {R : Runtime} (reg : Registry) (externalArgs : AnyRecord)
    (previousJobLineJournal : JobLineJournal)
    (index : nat) (step : JobLineStep) (st : LoopState) : Flow :=
  let previousJournal := array_get (jlj_steps previousJobLineJournal) (Z.of_nat index) in
  if already_done previousJournal then Break st
  else
    match jobs reg !! step_name step with
    | None => Throw (JobMissing (step_name step)) st
    | Some job =>
        let steps := jlj_steps (jobLineJournal st) in
        let args := buildJobArgs (step_args step) (job_args job)
                      {| opt_external := Some externalArgs;
                         opt_previous := last_output steps;
                         opt_steps := steps;
                         opt_index := Z.of_nat index |} in
        let res := executeOneJob job (context_for step (previousContext st))
                     args previousJournal in
        let stored := store_step (jobLineJournal st) index (res_journal res) in
        let calls := (invoked st ++ [res_call res])%list in
        if bool_decide (jj_status (res_journal res) ≠ Some Done) then
          Break {| jobLineJournal := store_status stored (jj_status (res_journal res));
                   previousContext := previousContext st;
                   invoked := calls |}
        else if res_done res then
          Break {| jobLineJournal := stored;
                   previousContext := previousContext st;
                   invoked := calls |}
        else
          Continue {| jobLineJournal := stored;
                      previousContext := previousContext st;
                      invoked := calls |}
    end.

(** [for (let index = ...; index < jobLine.steps.length; index++)], from
    [index] on, [todo] being the steps from [index] to the end.  The result
    is the state the loop leaves, with the error when the body threw. *)
Fixpoint for_steps {R : Runtime} (reg : Registry) (externalArgs : AnyRecord)
    (previousJobLineJournal : JobLineJournal)
    (todo : list JobLineStep) (index : nat) (st : LoopState)
    : option Error * LoopState :=
  match todo with
  | [] => (None, st)
  | step :: rest =>
      match loop_body reg externalArgs previousJobLineJournal index step st with
      | Continue st' => for_steps reg externalArgs previousJobLineJournal rest (S index) st'
      | Break st' => (None, st')
      | Throw e st' => (Some e, st')
      end
  end.

(** [if (jobLineJournal.status === 'pending') jobLineJournal.status = 'done'] *)
Definition settle (j : JobLineJournal) : JobLineJournal :=
  if bool_decide (jlj_status j = Some Pending) then store_status j (Some Done) else j.

(** A call of [executeJobLine]: how it ended, and the executors it called. *)
Record Run : Type := {
  run_invoked : list Invocation;
  run_outcome : Outcome JobLineJournal;
}.

Definition find_line (reg : Registry) (jobLineName : LineRef) : option JobLine :=
  match jobLineName with
  | ByName name => jobLines reg !! name
  | ByValue jobLine => Some jobLine
  end.

Definition initial_journal (jobLine : JobLine) (externalArgs : AnyRecord) : JobLineJournal :=
  {| jlj_name := line_name jobLine; jlj_status := Some Pending;
     jlj_input := externalArgs; jlj_steps := [] |}.

(** [options?.previousJobLineJournal || { name, input, steps: [] }] *)
Definition resumption (jobLine : JobLine) (externalArgs : AnyRecord)
    (options : option Options) : JobLineJournal :=
  match options ≫= opts_previousJobLineJournal with
  | Some journal => journal
  | None => {| jlj_name := line_name jobLine; jlj_input := externalArgs;
               jlj_status := None; jlj_steps := [] |}
  end.

Definition initial_state (jobLine : JobLine) (externalArgs : AnyRecord) : LoopState :=
  {| jobLineJournal := initial_journal jobLine externalArgs;
     previousContext := None;
     invoked := [] |}.

Definition executeJobLine {R : Runtime} (reg : Registry) (jobLineName : LineRef)
    (options : option Options) : Run :=
  match find_line reg jobLineName with
  | None => {| run_invoked := []; run_outcome := Exited LineMissing |}
  | Some jobLine =>
      match external_args jobLine options with
      | Threw e => {| run_invoked := []; run_outcome := Threw e |}
      | Exited why => {| run_invoked := []; run_outcome := Exited why |}
      | Returned externalArgs =>
          let previousJobLineJournal := resumption jobLine externalArgs options in
          let '(err, st) := for_steps reg externalArgs previousJobLineJournal
                              (line_steps jobLine) 0 (initial_state jobLine externalArgs) in
          {| run_invoked := invoked st;
             run_outcome :=
               match err with
               | Some e => Threw e
               | None => Returned (settle (jobLineJournal st))
               end |}
      end
  end.

(** The loop gets through the steps [pre], starting at [index] in state
    [st], without leaving: every turn ends in [Continue]. *)
Fixpoint passes {R : Runtime} (reg : Registry) (externalArgs : AnyRecord)
    (previousJobLineJournal : JobLineJournal)
    (pre : list JobLineStep) (index : nat) (st : LoopState) : option LoopState :=
  match pre with
  | [] => Some st
  | step :: rest =>
      match loop_body reg externalArgs previousJobLineJournal index step st with
      | Continue st' => passes reg externalArgs previousJobLineJournal rest (S index) st'
      | _ => None
      end
  end.

(** ** Sample jobs and lines, used to run the definitions *)

Module Samples.
Local Open Scope string_scope.

(** Marks the context and returns [{ out: 5 }]. *)
Definition marker : Job :=
  {| job_name := "marker"; job_label := None; job_desc := None;
     job_args := Some ["x"];
     job_executor := λ ctx args,
       {| exec_ctx := <["mark" := VNum 1]> ctx;
          exec_done := false;
          exec_settled := Fulfilled (VObj [("out", VNum 5)]) |} |}.

(** Returns what it finds under [mark] in its context. *)
Definition reader : Job :=
  {| job_name := "reader"; job_label := None; job_desc := None;
     job_args := Some ["y"];
     job_executor := λ ctx args,
       {| exec_ctx := ctx;
          exec_done := false;
          exec_settled := Fulfilled (record_get ctx "mark") |} |}.

(** Always throws. *)
Definition failing : Job :=
  {| job_name := "failing"; job_label := None; job_desc := None;
     job_args := Some ["y"];
     job_executor := λ ctx args,
       {| exec_ctx := ctx;
          exec_done := false;
          exec_settled := Rejected (VStr "boom") |} |}.

(** Succeeds and calls [done()]. *)
Definition stopper : Job :=
  {| job_name := "stopper"; job_label := None; job_desc := None;
     job_args := None;
     job_executor := λ ctx args,
       {| exec_ctx := ctx;
          exec_done := true;
          exec_settled := Fulfilled VNull |} |}.

Definition registry : Registry :=
  {| jobs := <["marker" := marker]> (<["reader" := reader]>
               (<["failing" := failing]> (<["stopper" := stopper]> ∅)));
     jobLines := ∅ |}.

Definition plain (name : JobName) : JobLineStep :=
  {| step_name := name; step_inheritable := None; step_args := None |}.

Definition line_of (steps : list JobLineStep) : JobLine :=
  {| line_name := "line"; line_args := None; line_steps := steps |}.

(** Two steps, both inheriting the context (the default). *)
Definition mark_then_read : JobLine := line_of [plain "marker"; plain "reader"].

Definition three_steps : JobLine :=
  line_of [plain "marker"; plain "failing"; plain "reader"].

Definition no_options : option Options := None.

Definition done_journal (name : JobName) : JobJournal :=
  {| jj_name := name; jj_input := ∅; jj_output := VNum 1; jj_status := Some Done |}.

Definition resume_from (steps : list (option JobJournal)) : option Options :=
  Some {| opts_args := None;
          opts_previousJobLineJournal :=
            Some {| jlj_name := "line"; jlj_input := ∅;
                    jlj_status := Some Done; jlj_steps := steps |} |}.

(** A line that requires the external argument [y]; its only step has no
    [args] list and runs [reader], whose formal parameter is [y]. *)
Definition line_with_y : JobLine :=
  {| line_name := "line"; line_args := Some ["y"]; line_steps := [plain "reader"] |}.

Definition y_is_7 : option Options :=
  Some {| opts_args := Some (<["y" := VNum 7]> ∅);
          opts_previousJobLineJournal := None |}.

Definition external_y : BuildOptions :=
  {| opt_external := Some (<["y" := VNum 7]> ∅); opt_previous := VUndefined;
     opt_steps := []; opt_index := 0 |}.

(** A runtime to run the samples with: the [length] of a string, and no
    other property on a value that is not a plain object. *)
Definition runtime : Runtime :=
  λ v k,
    match v with
    | VStr s => if String.eqb k "length" then VNum (Z.of_nat (String.length s)) else VUndefined
    | _ => VUndefined
    end.


End Samples.

(** ** What holds of the loop state as long as the loop goes on *)

(** An executor call that returned. *)
Definition fulfilled (c : Invocation) : Prop :=
  ∃ output, exec_settled (inv_run c) = Fulfilled output.

(** A cell that holds a journal with status [done]. *)
Definition done_cell (cell : option JobJournal) : Prop :=
  ∃ journal, cell = Some journal ∧ jj_status journal = Some Done.

(** At the start of turn [index]: the line is still [pending], turns
    [0 .. index - 1] each stored a [done] journal and called one executor,
    which got the empty context and returned, and [previousContext] is still
    [null]. *)
Record steady (index : nat) (st : LoopState) : Prop := {
  steady_status : jlj_status (jobLineJournal st) = Some Pending;
  steady_length : length (jlj_steps (jobLineJournal st)) = index;
  steady_cells : Forall done_cell (jlj_steps (jobLineJournal st));
  steady_calls : length (invoked st) = index;
  steady_fulfilled : Forall fulfilled (invoked st);
  steady_contexts : Forall (λ c, inv_ctx c = ∅) (invoked st);
  steady_context : previousContext st = None;
}.

(** How the journal and the calls stand when the loop is left: either every
    stored journal is [done] and the line is still [pending], or the last
    stored journal is the only one that is not, its executor threw, and the
    line took the status [exception]. *)
Definition ended (st : LoopState) : Prop :=
  (jlj_status (jobLineJournal st) = Some Pending
   ∧ Forall done_cell (jlj_steps (jobLineJournal st))
   ∧ Forall fulfilled (invoked st))
  ∨ (jlj_status (jobLineJournal st) = Some Exception
     ∧ ∃ cells journal calls c err,
         jlj_steps (jobLineJournal st) = cells ++ [Some journal]
         ∧ Forall done_cell cells
         ∧ jj_status journal = Some Exception
         ∧ invoked st = calls ++ [c]
         ∧ Forall fulfilled calls
         ∧ exec_settled (inv_run c) = Rejected err).

(** The states the loop can leave behind when it started [steady]. *)
Record left_behind (bound : nat) (st : LoopState) : Prop := {
  left_length : (length (jlj_steps (jobLineJournal st)) ≤ bound)%nat;
  left_calls : length (invoked st) = length (jlj_steps (jobLineJournal st));
  left_contexts : Forall (λ c, inv_ctx c = ∅) (invoked st);
  left_ended : ended st;
}.

(** ** Notions used to describe whole runs *)

(** An executor call that returned without calling [done()]: the only kind
    of call after which the loop goes on. *)
Definition quiet (c : Invocation) : Prop :=
  fulfilled c ∧ exec_done (inv_run c) = false.

(** A job whose executor always returns and never calls [done()]. *)
Definition well_behaved (job : Job) : Prop :=
  ∀ ctx args, ∃ output,
    exec_settled (job_executor job ctx args) = Fulfilled output
    ∧ exec_done (job_executor job ctx args) = false.

(** The entry the caller's [previousJobLineJournal] has at [index], if the
    caller gave one. *)
Definition prior_entry (options : option Options) (index : nat) : option JobJournal :=
  match options ≫= opts_previousJobLineJournal with
  | Some previous => array_get (jlj_steps previous) (Z.of_nat index)
  | None => None
  end.

(** The journal [journal] is what [executeOneJob] leaves for the executor
    call [c] when it started from the entry [prior]: name and input come
    from [prior] when there is one and from the call otherwise; a returned
    value is stored as output with status [done]; after a throw the output is
    the one [prior] had ([null] without [prior]) and the status is
    [exception]. *)
Definition recorded (prior : option JobJournal) (journal : JobJournal)
    (c : Invocation) : Prop :=
  jj_name journal = match prior with Some p => jj_name p | None => inv_job c end
  ∧ jj_input journal = match prior with Some p => jj_input p | None => inv_args c end
  ∧ match exec_settled (inv_run c) with
    | Fulfilled output =>
        jj_output journal = output ∧ jj_status journal = Some Done
    | Rejected _ =>
        jj_output journal = match prior with Some p => jj_output p | None => VNull end
        ∧ jj_status journal = Some Exception
    end.

(** The required names the caller's arguments have no value for, in the
    order of [jobLine.args]. *)
Definition lacking (args : AnyRecord) (argKeys : list string) : list string :=
  List.filter (λ argKey, is_undefined (record_get args argKey)) argKeys.

(** The executor call [c] is the call of the step [step]: the job the
    registry holds under the step's name, run on the context and arguments
    the call shows, these arguments having only formal parameters of the job
    as keys. *)
Definition call_of_step (reg : Registry) (step : JobLineStep) (c : Invocation) : Prop :=
  ∃ job,
    jobs reg !! step_name step = Some job
    ∧ inv_job c = job_name job
    ∧ inv_run c = job_executor job (inv_ctx c) (inv_args c)
    ∧ ∀ p, is_Some (inv_args c !! p) →
        ∃ formals, job_args job = Some formals ∧ p ∈ formals.

(** * Properties *)

Local Open Scope nat_scope.

Section Properties.
Context {R : Runtime}.

(** ** Arrays *)

Section ArrayFacts.
Context {A : Type}.
Implicit Types (a : list (option A)) (x : A).

Lemma array_set_end a x : array_set a (length a) x = a ++ [Some x].
Proof.
  unfold array_set. rewrite bool_decide_eq_false_2 by lia.
  by rewrite Nat.sub_diag.
Qed.

Lemma length_array_set a i x : length (array_set a i x) = length a `max` S i.
Proof.
  unfold array_set. case_bool_decide.
  - rewrite length_insert. lia.
  - rewrite !length_app, length_replicate. simpl. lia.
Qed.

Lemma array_get_nat a (i : nat) : array_get a (Z.of_nat i) = mjoin (a !! i).
Proof.
  unfold array_get. destruct (Z.ltb_spec (Z.of_nat i) 0); [lia|].
  by rewrite Nat2Z.id.
Qed.

Lemma array_get_negative a (i : Z) : (i < 0)%Z → array_get a i = None.
Proof. intros Hi. unfold array_get. by destruct (Z.ltb_spec i 0); [|lia]. Qed.

Lemma array_get_empty (i : Z) : array_get (@nil (option A)) i = None.
Proof. unfold array_get. by destruct (i <? 0)%Z. Qed.

End ArrayFacts.

(** ** executeOneJob *)

Lemma executeOneJob_call job ctx args journal :
  res_call (executeOneJob job ctx args journal)
  = {| inv_job := job_name job; inv_ctx := default ∅ ctx; inv_args := args;
       inv_run := job_executor job (default ∅ ctx) args |}.
Proof. unfold executeOneJob. destruct ctx, (exec_settled _); reflexivity. Qed.

Lemma executeOneJob_fulfilled job ctx args journal output :
  exec_settled (job_executor job (default ∅ ctx) args) = Fulfilled output →
  jj_status (res_journal (executeOneJob job ctx args journal)) = Some Done
  ∧ jj_output (res_journal (executeOneJob job ctx args journal)) = output
  ∧ res_done (executeOneJob job ctx args journal)
    = exec_done (job_executor job (default ∅ ctx) args).
Proof. unfold executeOneJob. destruct ctx; simpl; intros ->; done. Qed.

Lemma executeOneJob_rejected job ctx args journal err :
  exec_settled (job_executor job (default ∅ ctx) args) = Rejected err →
  jj_status (res_journal (executeOneJob job ctx args journal)) = Some Exception
  ∧ jj_output (res_journal (executeOneJob job ctx args journal))
    = match journal with Some prior => jj_output prior | None => VNull end.
Proof. unfold executeOneJob. destruct ctx, journal; simpl; intros ->; done. Qed.

(** The status a job journal leaves [executeOneJob] with says how the
    executor ended. *)
Lemma executeOneJob_status job ctx args journal :
  (jj_status (res_journal (executeOneJob job ctx args journal)) = Some Done
   ∧ fulfilled (res_call (executeOneJob job ctx args journal)))
  ∨ (jj_status (res_journal (executeOneJob job ctx args journal)) = Some Exception
     ∧ ∃ err, exec_settled (inv_run (res_call (executeOneJob job ctx args journal)))
              = Rejected err).
Proof.
  rewrite executeOneJob_call. unfold fulfilled. simpl.
  destruct (exec_settled (job_executor job (default ∅ ctx) args)) as [o|e] eqn:E.
  - left. split; [by eapply executeOneJob_fulfilled | by exists o].
  - right. split; [by eapply executeOneJob_rejected | by exists e].
Qed.

(** ** The loop *)

Section Loop.
Variable reg : Registry.
Variable externalArgs : AnyRecord.
Variable previousJobLineJournal : JobLineJournal.

Let body := loop_body reg externalArgs previousJobLineJournal.
Let loop := for_steps reg externalArgs previousJobLineJournal.
Let pass := passes reg externalArgs previousJobLineJournal.

Lemma steady_left_behind index bound st :
  steady index st → index ≤ bound → left_behind bound st.
Proof.
  intros [Hs Hl Hc Hn Hf Hx _] Hle. split.
  - lia.
  - congruence.
  - done.
  - left. done.
Qed.

(** One turn from a steady state. *)
Lemma loop_body_steady index step st :
  steady index st →
  match body index step st with
  | Continue st' => steady (S index) st'
  | Break st' => left_behind (S index) st'
  | Throw e st' =>
      st' = st ∧ e = JobMissing (step_name step)
      ∧ jobs reg !! step_name step = None
      ∧ already_done (array_get (jlj_steps previousJobLineJournal) (Z.of_nat index)) = false
  end.
Proof.
  intros Hst. pose proof Hst as [Hs Hl Hc Hn Hf Hx Hp].
  unfold body, loop_body.
  destruct (already_done _) eqn:Hdone.
  { eapply steady_left_behind; [done | lia]. }
  destruct (jobs reg !! step_name step) as [job|] eqn:Hjob; [|done].
  set (args := buildJobArgs _ _ _).
  pose proof (executeOneJob_status job (context_for step (previousContext st)) args
                (array_get (jlj_steps previousJobLineJournal) (Z.of_nat index)))
    as Hstatus.
  set (res := executeOneJob _ _ _ _) in *.
  assert (Hctx : inv_ctx (res_call res) = ∅).
  { subst res. rewrite executeOneJob_call, Hp. simpl.
    unfold context_for. by destruct (step_inheritable step) as [[]|]. }
  assert (Hstore : array_set (jlj_steps (jobLineJournal st)) index (res_journal res)
                   = jlj_steps (jobLineJournal st) ++ [Some (res_journal res)]).
  { rewrite <- Hl. apply array_set_end. }
  destruct Hstatus as [[Hok Hful]|[Hexc [err Herr]]].
  - rewrite bool_decide_eq_false_2 by (rewrite Hok; naive_solver).
    assert (Hcells : Forall done_cell (jlj_steps (jobLineJournal st) ++ [Some (res_journal res)])).
    { apply Forall_app. split; [done|]. apply Forall_singleton. by eexists. }
    destruct (res_done res).
    + split; simpl.
      * rewrite Hstore, length_app. simpl. lia.
      * rewrite Hstore, !length_app. simpl. lia.
      * apply Forall_app. split; [done|]. by apply Forall_singleton.
      * left. simpl. rewrite Hstore. repeat split; [done..|].
        apply Forall_app. split; [done|]. by apply Forall_singleton.
    + split; simpl.
      * done.
      * rewrite Hstore, length_app. simpl. lia.
      * by rewrite Hstore.
      * rewrite length_app. simpl. lia.
      * apply Forall_app. split; [done|]. by apply Forall_singleton.
      * apply Forall_app. split; [done|]. by apply Forall_singleton.
      * done.
  - rewrite bool_decide_eq_true_2 by (rewrite Hexc; done).
    split; simpl.
    + rewrite Hstore, length_app. simpl. lia.
    + rewrite Hstore, !length_app. simpl. lia.
    + apply Forall_app. split; [done|]. by apply Forall_singleton.
    + right. simpl. split; [done|].
      exists (jlj_steps (jobLineJournal st)), (res_journal res), (invoked st),
        (res_call res), err.
      by rewrite Hstore.
Qed.

Lemma left_behind_mono bound bound' st :
  left_behind bound st → bound ≤ bound' → left_behind bound' st.
Proof. intros [? ? ? ?] ?. split; [lia | done..]. Qed.

(** The whole loop from a steady state. *)
Lemma for_steps_steady todo index st :
  steady index st →
  left_behind (index + length todo) (loop todo index st).2
  ∧ ∀ e, (loop todo index st).1 = Some e →
      Forall fulfilled (invoked (loop todo index st).2)
      ∧ ∃ name, e = JobMissing name ∧ jobs reg !! name = None.
Proof.
  revert index st. induction todo as [|step rest IH]; intros index st Hst.
  - simpl. split; [|done]. eapply steady_left_behind; [done | lia].
  - unfold loop. simpl.
    pose proof (loop_body_steady index step st Hst) as Hbody.
    unfold body in Hbody.
    destruct (loop_body reg externalArgs previousJobLineJournal index step st)
      as [st'|st'|e st'].
    + destruct (IH (S index) st' Hbody) as [Hleft Herr].
      replace (index + S (length rest)) with (S index + length rest) by lia.
      done.
    + simpl. split; [|done]. eapply left_behind_mono; [done | lia].
    + destruct Hbody as (-> & -> & Hnone & _). simpl. split.
      * eapply steady_left_behind; [done | lia].
      * intros e [= <-]. split; [apply Hst | by eexists].
Qed.

Lemma passes_steady pre index st st' :
  steady index st → pass pre index st = Some st' →
  steady (index + length pre) st'.
Proof.
  revert index st. induction pre as [|step rest IH]; intros index st Hst Hpass.
  - simpl in *. injection Hpass as <-. by rewrite Nat.add_0_r.
  - unfold pass in Hpass. simpl in Hpass.
    pose proof (loop_body_steady index step st Hst) as Hbody.
    unfold body in Hbody.
    destruct (loop_body reg externalArgs previousJobLineJournal index step st)
      as [st1|st1|e st1]; [|done..].
    replace (index + length (step :: rest)) with (S index + length rest)
      by (simpl; lia).
    by eapply IH.
Qed.

(** Steps the loop gets through can be set aside. *)
Lemma for_steps_passes pre rest index st st' :
  pass pre index st = Some st' →
  loop (pre ++ rest) index st = loop rest (index + length pre) st'.
Proof.
  revert index st. induction pre as [|step pre IH]; intros index st Hpass.
  - simpl in *. injection Hpass as <-. by rewrite Nat.add_0_r.
  - unfold pass in Hpass. unfold loop. simpl in *.
    destruct (loop_body reg externalArgs previousJobLineJournal index step st)
      as [st1|st1|e st1]; [|done..].
    replace (index + S (length pre)) with (S index + length pre) by lia.
    by apply IH.
Qed.

End Loop.

Lemma initial_state_steady jobLine externalArgs :
  steady 0 (initial_state jobLine externalArgs).
Proof. split; simpl; done. Qed.

(** ** executeJobLine as a whole *)

Lemma settle_steps j : jlj_steps (settle j) = jlj_steps j.
Proof. unfold settle. by case_bool_decide. Qed.

Lemma settle_pending j : jlj_status j = Some Pending → jlj_status (settle j) = Some Done.
Proof. intros H. unfold settle. by rewrite bool_decide_eq_true_2. Qed.

Lemma settle_exception j :
  jlj_status j = Some Exception → jlj_status (settle j) = Some Exception.
Proof. intros H. unfold settle. rewrite bool_decide_eq_false_2; [done | by rewrite H]. Qed.

Lemma collect_args_threw options argKeys externalArgs lackedArgs e :
  collect_args options argKeys externalArgs lackedArgs = Threw e → e = TypeError.
Proof.
  revert externalArgs lackedArgs.
  induction argKeys as [|argKey rest IH]; intros externalArgs lackedArgs; simpl; [done|].
  unfold option_arg. destruct options as [o|]; [destruct (opts_args o)|].
  - destruct (is_undefined _); apply IH.
  - by intros [= <-].
  - apply IH.
Qed.

Lemma external_args_threw jobLine options e :
  external_args jobLine options = Threw e → e = TypeError.
Proof.
  unfold external_args. destruct (line_args jobLine) as [argKeys|]; [|done].
  destruct (collect_args options argKeys ∅ []) as [[ext lacked]|e'|why] eqn:Hc.
  - by destruct (0 <? length lacked).
  - intros [= <-]. by eapply collect_args_threw.
  - done.
Qed.

(** Once the line is found and its arguments are there, the call is the
    loop followed by the settling of the status. *)
Lemma executeJobLine_run reg jobLineName options jobLine externalArgs :
  find_line reg jobLineName = Some jobLine →
  external_args jobLine options = Returned externalArgs →
  executeJobLine reg jobLineName options
  = let r := for_steps reg externalArgs (resumption jobLine externalArgs options)
               (line_steps jobLine) 0 (initial_state jobLine externalArgs) in
    {| run_invoked := invoked r.2;
       run_outcome := match r.1 with
                      | Some e => Threw e
                      | None => Returned (settle (jobLineJournal r.2))
                      end |}.
Proof.
  intros Hline Hargs. unfold executeJobLine. rewrite Hline, Hargs.
  by destruct (for_steps _ _ _ _ _ _).
Qed.

(** What every call of [executeJobLine] satisfies, by the way it ends. *)
Lemma executeJobLine_ends reg jobLineName options :
  match run_outcome (executeJobLine reg jobLineName options) with
  | Returned journal =>
      ∃ jobLine st,
        find_line reg jobLineName = Some jobLine
        ∧ left_behind (length (line_steps jobLine)) st
        ∧ journal = settle (jobLineJournal st)
        ∧ run_invoked (executeJobLine reg jobLineName options) = invoked st
  | Threw e =>
      Forall fulfilled (run_invoked (executeJobLine reg jobLineName options))
      ∧ (e = TypeError ∨ ∃ name, e = JobMissing name ∧ jobs reg !! name = None)
  | Exited _ => run_invoked (executeJobLine reg jobLineName options) = []
  end.
Proof.
  destruct (find_line reg jobLineName) as [jobLine|] eqn:Hline.
  2: { unfold executeJobLine. by rewrite Hline. }
  destruct (external_args jobLine options) as [externalArgs|e|why] eqn:Hargs.
  - rewrite (executeJobLine_run _ _ _ _ _ Hline Hargs). simpl.
    destruct (for_steps_steady reg externalArgs (resumption jobLine externalArgs options)
                (line_steps jobLine) 0 _ (initial_state_steady jobLine externalArgs))
      as [Hleft Herr].
    destruct (for_steps _ _ _ _ _ _) as [[e|] st]; simpl in *.
    + destruct (Herr e eq_refl) as [Hful Hname]. split; [done | by right].
    + by exists jobLine, st.
  - unfold executeJobLine. rewrite Hline, Hargs. simpl. split; [done|].
    left. by eapply external_args_threw.
  - unfold executeJobLine. by rewrite Hline, Hargs.
Qed.

Lemma done_cell_not_bad cells journal :
  Forall done_cell cells → Some journal ∈ cells → jj_status journal = Some Done.
Proof.
  intros Hall Hin. rewrite Forall_forall in Hall.
  destruct (Hall _ Hin) as (j & [= <-] & Hj). done.
Qed.

Lemma fulfilled_not_rejected c err :
  fulfilled c → exec_settled (inv_run c) = Rejected err → False.
Proof. intros [o Ho] Hr. congruence. Qed.

(** ** Early stops of a line *)

(** C2.  When the loop comes to an index at which the journal handed in for
    resumption has an entry with status [done], the line stops there: the
    call returns, the executors called are the ones of the turns before and
    no other, and the returned journal has the entries of those turns and no
    more.  The line then reports [done]. *)
Theorem executeJobLine_stops_at_done_entry
    reg jobLineName o previous jobLine externalArgs pre step post st previousJournal :
  find_line reg jobLineName = Some jobLine →
  external_args jobLine (Some o) = Returned externalArgs →
  opts_previousJobLineJournal o = Some previous →
  line_steps jobLine = pre ++ step :: post →
  passes reg externalArgs previous pre 0 (initial_state jobLine externalArgs) = Some st →
  array_get (jlj_steps previous) (Z.of_nat (length pre)) = Some previousJournal →
  jj_status previousJournal = Some Done →
  run_invoked (executeJobLine reg jobLineName (Some o)) = invoked st
  ∧ length (run_invoked (executeJobLine reg jobLineName (Some o))) = length pre
  ∧ ∃ journal,
      run_outcome (executeJobLine reg jobLineName (Some o)) = Returned journal
      ∧ jlj_steps journal = jlj_steps (jobLineJournal st)
      ∧ length (jlj_steps journal) = length pre
      ∧ jlj_status journal = Some Done.
Proof.
  intros Hline Hargs Hprev Hsteps Hpass Hentry Hdone.
  rewrite (executeJobLine_run _ _ _ _ _ Hline Hargs).
  assert (Hres : resumption jobLine externalArgs (Some o) = previous).
  { unfold resumption. simpl. by rewrite Hprev. }
  rewrite Hres, Hsteps, (for_steps_passes _ _ _ _ _ _ _ _ Hpass).
  pose proof (passes_steady _ _ _ _ _ _ _ (initial_state_steady jobLine externalArgs) Hpass)
    as Hst.
  simpl. unfold loop_body. rewrite Hentry. simpl.
  rewrite bool_decide_eq_true_2 by done. simpl.
  destruct Hst as [Hs Hl Hc Hn Hf Hx Hp]. simpl in *.
  repeat split; [done|].
  exists (settle (jobLineJournal st)).
  rewrite settle_steps. repeat split; [done|]. by apply settle_pending.
Qed.

(** C7.  When the loop comes to a step, not cut short by the resumption
    journal, whose job is not in the registry, [executeJobLine] throws the
    error naming that job; the executors called are those of the turns
    before, so neither this step nor a later one is run. *)
Theorem executeJobLine_unknown_job
    reg jobLineName options jobLine externalArgs pre step post st :
  find_line reg jobLineName = Some jobLine →
  external_args jobLine options = Returned externalArgs →
  line_steps jobLine = pre ++ step :: post →
  passes reg externalArgs (resumption jobLine externalArgs options) pre 0
    (initial_state jobLine externalArgs) = Some st →
  already_done (array_get (jlj_steps (resumption jobLine externalArgs options))
                  (Z.of_nat (length pre))) = false →
  jobs reg !! step_name step = None →
  executeJobLine reg jobLineName options
  = {| run_invoked := invoked st;
       run_outcome := Threw (JobMissing (step_name step)) |}
  ∧ length (invoked st) = length pre.
Proof.
  intros Hline Hargs Hsteps Hpass Hfresh Hjob.
  rewrite (executeJobLine_run _ _ _ _ _ Hline Hargs).
  rewrite Hsteps, (for_steps_passes _ _ _ _ _ _ _ _ Hpass).
  pose proof (passes_steady _ _ _ _ _ _ _ (initial_state_steady jobLine externalArgs) Hpass)
    as Hst.
  simpl. unfold loop_body. rewrite Hfresh, Hjob. simpl.
  split; [done|]. apply Hst.
Qed.

(** ** The returned journal *)

(** C9.  A journal returned by [executeJobLine] has at most as many step
    entries as the line has steps. *)
Theorem executeJobLine_steps_bounded reg jobLineName options journal :
  run_outcome (executeJobLine reg jobLineName options) = Returned journal →
  ∃ jobLine,
    find_line reg jobLineName = Some jobLine
    ∧ length (jlj_steps journal) ≤ length (line_steps jobLine).
Proof.
  intros Hret. pose proof (executeJobLine_ends reg jobLineName options) as Hend.
  rewrite Hret in Hend. destruct Hend as (jobLine & st & Hline & Hleft & -> & _).
  exists jobLine. split; [done|]. rewrite settle_steps. apply Hleft.
Qed.

(** C10.  A journal returned by [executeJobLine] is never [pending]: its
    status is [exception] exactly when one of its step entries is not
    [done], which is exactly when an executor it called threw, and [done]
    otherwise. *)
Theorem executeJobLine_status reg jobLineName options journal :
  run_outcome (executeJobLine reg jobLineName options) = Returned journal →
  jlj_status journal ≠ Some Pending
  ∧ (jlj_status journal = Some Exception
     ↔ ∃ step, Some step ∈ jlj_steps journal ∧ jj_status step ≠ Some Done)
  ∧ (jlj_status journal = Some Exception
     ↔ ∃ c err, c ∈ run_invoked (executeJobLine reg jobLineName options)
                ∧ exec_settled (inv_run c) = Rejected err)
  ∧ (jlj_status journal ≠ Some Exception → jlj_status journal = Some Done).
Proof.
  intros Hret. pose proof (executeJobLine_ends reg jobLineName options) as Hend.
  rewrite Hret in Hend. destruct Hend as (jobLine & st & Hline & Hleft & -> & ->).
  rewrite settle_steps.
  destruct (left_ended _ _ Hleft)
    as [(Hs & Hcells & Hful)
       |(Hs & cells & last & calls & c & err & Hsteps & Hcells & Hlast & Hcalls & Hful & Hrej)].
  - rewrite (settle_pending _ Hs). repeat split; try done.
    + intros (step & Hin & Hbad). by rewrite (done_cell_not_bad _ _ Hcells Hin) in Hbad.
    + intros (c & err & Hin & Hrej). rewrite Forall_forall in Hful.
      destruct (fulfilled_not_rejected c err (Hful _ Hin) Hrej).
  - rewrite (settle_exception _ Hs). repeat split; try done.
    + intros _. exists last. rewrite Hsteps, Hlast. split; [|done].
      apply elem_of_app. right. by apply list_elem_of_singleton.
    + intros _. exists c, err. rewrite Hcalls. split; [|done].
      apply elem_of_app. right. by apply list_elem_of_singleton.
Qed.

(** ** Failures of executors *)

(** C4.  When the executor throws, [executeOneJob] still returns its result:
    the journal in it has status [exception] and the output the incoming
    journal had ([null] for a fresh journal).  And a call of [executeJobLine]
    in which an executor threw returns a journal, whose status is
    [exception]; it does not throw. *)
Theorem executor_failure_is_journal_state :
  (∀ job ctx args journal err,
     exec_settled (job_executor job (default ∅ ctx) args) = Rejected err →
     inv_run (res_call (executeOneJob job ctx args journal))
     = job_executor job (default ∅ ctx) args
     ∧ jj_status (res_journal (executeOneJob job ctx args journal)) = Some Exception
     ∧ jj_output (res_journal (executeOneJob job ctx args journal))
       = match journal with Some prior => jj_output prior | None => VNull end)
  ∧ (∀ reg jobLineName options c err,
       c ∈ run_invoked (executeJobLine reg jobLineName options) →
       exec_settled (inv_run c) = Rejected err →
       ∃ journal,
         run_outcome (executeJobLine reg jobLineName options) = Returned journal
         ∧ jlj_status journal = Some Exception).
Proof.
  split.
  - intros job ctx args journal err Hrej. split.
    + by rewrite executeOneJob_call.
    + by eapply executeOneJob_rejected.
  - intros reg jobLineName options c err Hin Hrej.
    pose proof (executeJobLine_ends reg jobLineName options) as Hend.
    destruct (run_outcome (executeJobLine reg jobLineName options))
      as [journal|e|why] eqn:Hout.
    + destruct Hend as (line & st & _ & Hleft & -> & Hinv). rewrite Hinv in Hin.
      exists (settle (jobLineJournal st)). split; [done|].
      destruct (left_ended _ _ Hleft) as [(_ & _ & Hful)|(Hs & _)].
      * rewrite Forall_forall in Hful.
        destruct (fulfilled_not_rejected c err (Hful _ Hin) Hrej).
      * by apply settle_exception.
    + destruct Hend as [Hful _]. rewrite Forall_forall in Hful.
      destruct (fulfilled_not_rejected c err (Hful _ Hin) Hrej).
    + rewrite Hend in Hin. by apply elem_of_nil in Hin.
Qed.

(** ** Registration *)

(** C8.  Of two registrations under one name, the second throws and leaves
    the registry as it was, so the name still maps to the item registered
    first; this for jobs and for lines.  Registering a null item returns and
    leaves the registry as it was. *)
Theorem register_same_name_twice reg job1 job2 line1 line2 :
  job_name job1 = job_name job2 →
  line_name line1 = line_name line2 →
  let after1 := (registerJob (Some job1) reg).2 in
  let after_line1 := (registerJobLine (Some line1) reg).2 in
  (registerJob (Some job2) after1 = (Threw (JobExists (job_name job2)), after1)
   ∧ ((registerJob (Some job1) reg).1 = Returned () →
      jobs (registerJob (Some job2) after1).2 !! job_name job1 = Some job1))
  ∧ (registerJobLine (Some line2) after_line1
     = (Threw (JobLineExists (line_name line2)), after_line1)
     ∧ ((registerJobLine (Some line1) reg).1 = Returned () →
        jobLines (registerJobLine (Some line2) after_line1).2 !! line_name line1
        = Some line1))
  ∧ registerJob None reg = (Returned (), reg)
  ∧ registerJobLine None reg = (Returned (), reg).
Proof.
  intros Hjob Hline. simpl. repeat split.
  - unfold registerJob. rewrite <- Hjob.
    destruct (jobs reg !! job_name job1) as [old|] eqn:Hold; simpl.
    + by rewrite Hold.
    + by rewrite lookup_insert_eq.
  - unfold registerJob. rewrite <- Hjob.
    destruct (jobs reg !! job_name job1) as [old|] eqn:Hold; simpl; [done|].
    intros _. rewrite lookup_insert_eq. simpl. apply lookup_insert_eq.
  - unfold registerJobLine. rewrite <- Hline.
    destruct (jobLines reg !! line_name line1) as [old|] eqn:Hold; simpl.
    + by rewrite Hold.
    + by rewrite lookup_insert_eq.
  - unfold registerJobLine. rewrite <- Hline.
    destruct (jobLines reg !! line_name line1) as [old|] eqn:Hold; simpl; [done|].
    intros _. rewrite lookup_insert_eq. simpl. apply lookup_insert_eq.
Qed.

(** ** Argument resolution *)

(** What [args.forEach] keeps true of [res] and [assignedArgs]: the keys of
    [res] are the names in [assignedArgs], all of them formal parameters. *)
Lemma resolve_arg_keys jobArgs options acc arg :
  (∀ p, p ∈ acc.2 ↔ is_Some (acc.1 !! p)) ∧ (∀ p, p ∈ acc.2 → p ∈ jobArgs) →
  (∀ p, p ∈ (resolve_arg jobArgs options acc arg).2
        ↔ is_Some ((resolve_arg jobArgs options acc arg).1 !! p))
  ∧ (∀ p, p ∈ (resolve_arg jobArgs options acc arg).2 → p ∈ jobArgs).
Proof.
  intros [Hdom Hsub].
  assert (Hassign : ∀ argKey v, argKey ∈ jobArgs →
    (∀ p, p ∈ (assign argKey v acc).2 ↔ is_Some ((assign argKey v acc).1 !! p))
    ∧ (∀ p, p ∈ (assign argKey v acc).2 → p ∈ jobArgs)).
  { intros argKey v Hin. unfold assign. simpl. split; intros p.
    - rewrite elem_of_app, list_elem_of_singleton, lookup_insert_is_Some, Hdom.
      destruct (decide (argKey = p)) as [->|]; intuition congruence.
    - rewrite elem_of_app, list_elem_of_singleton. intros [?| ->]; auto. }
  unfold resolve_arg. case_bool_decide as Hin; [|done].
  destruct arg as [argKey v|argKey k|argKey k|argKey type k|argKey k]; simpl in *.
  - by apply Hassign.
  - destruct (opt_external options); [by apply Hassign | done].
  - destruct (truthy (opt_previous options)); [by apply Hassign | done].
  - destruct (truthy (step_output options type)); [by apply Hassign | done].
  - done.
Qed.

Lemma fold_resolve_arg_keys jobArgs options args acc :
  (∀ p, p ∈ acc.2 ↔ is_Some (acc.1 !! p)) ∧ (∀ p, p ∈ acc.2 → p ∈ jobArgs) →
  (∀ p, p ∈ (fold_left (resolve_arg jobArgs options) args acc).2
        ↔ is_Some ((fold_left (resolve_arg jobArgs options) args acc).1 !! p))
  ∧ (∀ p, p ∈ (fold_left (resolve_arg jobArgs options) args acc).2 → p ∈ jobArgs).
Proof.
  revert acc. induction args as [|arg args IH]; intros acc Hacc; simpl; [done|].
  apply IH. by apply resolve_arg_keys.
Qed.

Lemma explicit_args_keys args jobArgs options :
  (∀ p, p ∈ (explicit_args args jobArgs options).2
        ↔ is_Some ((explicit_args args jobArgs options).1 !! p))
  ∧ (∀ p, p ∈ (explicit_args args jobArgs options).2 → p ∈ jobArgs).
Proof.
  apply fold_resolve_arg_keys. simpl. split; intros p.
  - rewrite lookup_empty. split; [by intros ?%elem_of_nil | by intros [? ?]].
  - by intros ?%elem_of_nil.
Qed.

(** The fallback writes the formal parameters that are not assigned and
    leaves every other key alone. *)
Lemma fallback_lookup external assignedArgs jobArgs res p :
  fold_left (fallback_arg external assignedArgs) jobArgs res !! p
  = if bool_decide (p ∈ jobArgs ∧ p ∉ assignedArgs)
    then Some (record_get external p)
    else res !! p.
Proof.
  revert res. induction jobArgs as [|jobArg jobArgs IH]; intros res; simpl; [done|].
  rewrite IH. unfold fallback_arg.
  destruct (decide (p = jobArg)) as [->|Hne].
  - repeat case_bool_decide; rewrite ?lookup_insert_eq; try done;
      exfalso; set_solver.
  - repeat case_bool_decide; rewrite ?lookup_insert_ne by done; try done;
      exfalso; set_solver.
Qed.

(** A name that is still free among names assigned once each leaves the
    count of assignments below the count of formal parameters. *)
Lemma assigned_fewer (assignedArgs jobArgs : list string) p :
  NoDup assignedArgs → (∀ q, q ∈ assignedArgs → q ∈ jobArgs) →
  p ∈ jobArgs → p ∉ assignedArgs →
  length assignedArgs < length jobArgs.
Proof.
  intros Hnd Hsub Hp Hfree.
  assert (Hle : length (p :: assignedArgs) ≤ length jobArgs).
  { apply submseteq_length, NoDup_submseteq.
    - by apply NoDup_cons.
    - intros q [->|Hq]%elem_of_cons; auto. }
  simpl in Hle. lia.
Qed.

(** An entry for another name leaves a name's value and its place in
    [assignedArgs] as they were. *)
Lemma resolve_arg_other jobArgs options acc arg p :
  arg_key arg ≠ p →
  (resolve_arg jobArgs options acc arg).1 !! p = acc.1 !! p
  ∧ (p ∈ (resolve_arg jobArgs options acc arg).2 ↔ p ∈ acc.2).
Proof.
  intros Hne.
  assert (Hassign : ∀ v, (assign (arg_key arg) v acc).1 !! p = acc.1 !! p
                         ∧ (p ∈ (assign (arg_key arg) v acc).2 ↔ p ∈ acc.2)).
  { intros v. unfold assign. simpl. rewrite lookup_insert_ne by done. split; [done|].
    rewrite elem_of_app, list_elem_of_singleton. naive_solver. }
  unfold resolve_arg. case_bool_decide; [|done].
  destruct arg as [argKey v|argKey k|argKey k|argKey type k|argKey k]; simpl in *.
  - apply Hassign.
  - destruct (opt_external options); [apply Hassign | done].
  - destruct (truthy (opt_previous options)); [apply Hassign | done].
  - destruct (truthy (step_output options type)); [apply Hassign | done].
  - done.
Qed.

Lemma fold_resolve_arg_other jobArgs options args acc p :
  (∀ arg, arg ∈ args → arg_key arg ≠ p) →
  (fold_left (resolve_arg jobArgs options) args acc).1 !! p = acc.1 !! p
  ∧ (p ∈ (fold_left (resolve_arg jobArgs options) args acc).2 ↔ p ∈ acc.2).
Proof.
  revert acc. induction args as [|arg args IH]; intros acc Hother; simpl; [done|].
  destruct (IH (resolve_arg jobArgs options acc arg)) as [Hres Hin].
  { intros arg' Harg'. apply Hother. by apply list_elem_of_further. }
  destruct (resolve_arg_other jobArgs options acc arg p) as [Hres' Hin'].
  { apply Hother. apply list_elem_of_here. }
  rewrite Hres, Hin. done.
Qed.

Lemma explicit_args_app pre post jobArgs options :
  explicit_args (pre ++ post) jobArgs options
  = fold_left (resolve_arg jobArgs options) post (explicit_args pre jobArgs options).
Proof. unfold explicit_args. by rewrite fold_left_app. Qed.

(** A name that an entry assigned keeps the value the entries gave it. *)
Lemma buildJobArgs_assigned args jobArgs options p :
  p ∈ (explicit_args args jobArgs options).2 →
  buildJobArgs (Some args) (Some jobArgs) options !! p
  = (explicit_args args jobArgs options).1 !! p.
Proof.
  intros Hin. unfold buildJobArgs.
  destruct (explicit_args args jobArgs options) as [res assignedArgs]. simpl in *.
  destruct (opt_external options) as [external|]; [|done].
  destruct (length assignedArgs <? length jobArgs); [|done].
  rewrite fallback_lookup. rewrite bool_decide_eq_false_2; [done|]. tauto.
Qed.

(** C6.  Take an entry [[key, n, k]] for a formal parameter of the job, not
    followed by another entry for that parameter ([__proto__] not being a
    formal parameter).  It reads the journal at position [index + n] of the
    run's steps when [n] is negative and at position [n] otherwise.  When
    that journal is there and its output is truthy, the arguments
    [buildJobArgs] returns hold [output[k]] for the parameter.  When the
    journal is missing or its output is falsy, the entry is skipped:
    [buildJobArgs] returns what it returns without the entry, and nothing is
    thrown. *)
Theorem buildJobArgs_FromStepAt before after jobArgs options argKey type k :
  argKey ∈ jobArgs →
  "__proto__"%string ∉ jobArgs →
  (∀ arg, arg ∈ after → arg_key arg ≠ argKey) →
  match array_get (opt_steps options)
          (if (type <? 0)%Z then (opt_index options + type)%Z else type) with
  | Some journal =>
      if truthy (jj_output journal)
      then buildJobArgs (Some (before ++ FromStepAt argKey type k :: after))
             (Some jobArgs) options !! argKey
           = Some (prop_get (jj_output journal) k)
      else buildJobArgs (Some (before ++ FromStepAt argKey type k :: after))
             (Some jobArgs) options
           = buildJobArgs (Some (before ++ after)) (Some jobArgs) options
  | None =>
      buildJobArgs (Some (before ++ FromStepAt argKey type k :: after))
        (Some jobArgs) options
      = buildJobArgs (Some (before ++ after)) (Some jobArgs) options
  end.
Proof.
  intros Hformal _ Hlast.
  assert (Hentry : resolve_arg jobArgs options (explicit_args before jobArgs options)
                     (FromStepAt argKey type k)
                   = let stepOutput := step_output options type in
                     if truthy stepOutput
                     then assign argKey (prop_get stepOutput k)
                            (explicit_args before jobArgs options)
                     else explicit_args before jobArgs options).
  { unfold resolve_arg. simpl. by rewrite bool_decide_eq_true_2. }
  assert (Hexp : explicit_args (before ++ FromStepAt argKey type k :: after) jobArgs options
                 = fold_left (resolve_arg jobArgs options) after
                     (resolve_arg jobArgs options (explicit_args before jobArgs options)
                        (FromStepAt argKey type k))).
  { by rewrite explicit_args_app. }
  assert (Hsame : resolve_arg jobArgs options (explicit_args before jobArgs options)
                    (FromStepAt argKey type k) = explicit_args before jobArgs options →
    buildJobArgs (Some (before ++ FromStepAt argKey type k :: after)) (Some jobArgs) options
    = buildJobArgs (Some (before ++ after)) (Some jobArgs) options).
  { intros Hnone. unfold buildJobArgs. rewrite Hexp, Hnone. by rewrite explicit_args_app. }
  assert (Hout : step_output options type
                 = match array_get (opt_steps options)
                           (if (type <? 0)%Z then (opt_index options + type)%Z else type) with
                   | Some journal => jj_output journal
                   | None => VUndefined
                   end).
  { unfold step_output. by destruct (type <? 0)%Z. }
  destruct (array_get (opt_steps options) _) as [journal|].
  - simpl in Hentry. rewrite Hout in Hentry.
    destruct (truthy (jj_output journal)); [|by apply Hsame].
    destruct (fold_resolve_arg_other jobArgs options after
                (assign argKey (prop_get (jj_output journal) k)
                   (explicit_args before jobArgs options)) argKey Hlast) as [Hres Hin].
    rewrite buildJobArgs_assigned; rewrite Hexp, Hentry.
    + rewrite Hres. unfold assign. simpl. apply lookup_insert_eq.
    + apply Hin. unfold assign. simpl. apply elem_of_app. right. apply list_elem_of_here.
  - simpl in Hentry. rewrite Hout in Hentry. simpl in Hentry. by apply Hsame.
Qed.

(** C3, as the code has it.  Without an [args] list on the step, or without
    formal parameters on the job, the result is empty: there is no fallback.
    With both, and [__proto__] not among the formal parameters, a formal
    parameter that no entry assigned is set to what the read
    [externalArgs[parameterName]] gives, when [externalArgs] is given and no
    parameter was assigned twice: its key is then in the result, with the
    value [undefined] when [externalArgs] neither has nor inherits a
    property of that name.  Without [externalArgs] the parameter is absent as
    a key. *)
Theorem buildJobArgs_same_name_fallback :
  (∀ jobArgs options, buildJobArgs None jobArgs options = ∅)
  ∧ (∀ args options, buildJobArgs args None options = ∅)
  ∧ (∀ args jobArgs options p,
       p ∈ jobArgs →
       "__proto__"%string ∉ jobArgs →
       p ∉ (explicit_args args jobArgs options).2 →
       (∀ external,
          opt_external options = Some external →
          NoDup (explicit_args args jobArgs options).2 →
          buildJobArgs (Some args) (Some jobArgs) options !! p
          = Some (record_get external p))
       ∧ (opt_external options = None →
          buildJobArgs (Some args) (Some jobArgs) options !! p = None)).
Proof.
  split; [done|]. split; [by intros [args|] options|].
  intros args jobArgs options p Hp _ Hfree.
  destruct (explicit_args_keys args jobArgs options) as [Hdom Hsub].
  unfold buildJobArgs.
  destruct (explicit_args args jobArgs options) as [res assignedArgs] eqn:Hexp.
  simpl in *. split.
  - intros external -> Hnd.
    pose proof (assigned_fewer _ _ _ Hnd Hsub Hp Hfree) as Hlt.
    apply Nat.ltb_lt in Hlt. rewrite Hlt.
    rewrite fallback_lookup. by rewrite bool_decide_eq_true_2.
  - intros ->. apply eq_None_not_Some. by rewrite <- Hdom.
Qed.

(** With an empty [args] list the same step does get [y = 7]: the early
    return on a missing list is what decides. *)
Example buildJobArgs_fallback_empty_list :
  buildJobArgs (Some []) (job_args Samples.reader) Samples.external_y !! "y"%string
  = Some (VNum 7).
Proof. vm_compute. reflexivity. Qed.

(** [FromStepAt(-1, 'out')] at index 2 reads [steps[1].output.out]. *)
Example buildJobArgs_relative_step :
  buildJobArgs (Some [FromStepAt "y" (-1) "out"]) (Some ["y"%string])
    {| opt_external := None; opt_previous := VUndefined;
       opt_steps := [Some (Samples.done_journal "marker");
                     Some {| jj_name := "reader"; jj_input := ∅;
                             jj_output := VObj [("out"%string, VNum 5)];
                             jj_status := Some Done |}];
       opt_index := 2 |}
  = <["y"%string := VNum 5]> ∅.
Proof. vm_compute. reflexivity. Qed.

(** ** The context handed to executors *)

(** X17.  Every executor [executeJobLine] calls gets an empty context,
    whatever the step's [inheritable] flag and whatever earlier executors
    left in theirs: [previousContext] is [null] from the first turn to the
    last. *)
Lemma executeJobLine_contexts_empty reg jobLineName options c :
  c ∈ run_invoked (executeJobLine reg jobLineName options) → inv_ctx c = ∅.
Proof.
  destruct (find_line reg jobLineName) as [jobLine|] eqn:Hline.
  2: { unfold executeJobLine. rewrite Hline. by intros ?%elem_of_nil. }
  destruct (external_args jobLine options) as [externalArgs|e|why] eqn:Hargs.
  - rewrite (executeJobLine_run _ _ _ _ _ Hline Hargs). simpl.
    destruct (for_steps_steady reg externalArgs (resumption jobLine externalArgs options)
                (line_steps jobLine) 0 _ (initial_state_steady jobLine externalArgs))
      as [Hleft _].
    pose proof (left_contexts _ _ Hleft) as Hctx. rewrite Forall_forall in Hctx.
    apply Hctx.
  - unfold executeJobLine. rewrite Hline, Hargs. by intros ?%elem_of_nil.
  - unfold executeJobLine. rewrite Hline, Hargs. by intros ?%elem_of_nil.
Qed.

(** C1 does not hold of the code.  In the line [marker], [reader], whose
    steps both leave [inheritable] unset, [marker] leaves [mark = 1] in its
    context, and [reader] is called with an empty context, not with the one
    [marker] left: it finds no [mark] and returns [undefined]. *)
Theorem executeJobLine_context_not_inherited :
  ∃ c0 c1 journal j0 j1,
    map step_inheritable (line_steps Samples.mark_then_read) = [None; None]
    ∧ run_invoked (executeJobLine Samples.registry (ByValue Samples.mark_then_read)
                     Samples.no_options) = [c0; c1]
    ∧ exec_ctx (inv_run c0) !! "mark"%string = Some (VNum 1)
    ∧ inv_ctx c1 = ∅
    ∧ inv_ctx c1 ≠ exec_ctx (inv_run c0)
    ∧ run_outcome (executeJobLine Samples.registry (ByValue Samples.mark_then_read)
                     Samples.no_options) = Returned journal
    ∧ jlj_steps journal = [Some j0; Some j1]
    ∧ jj_output j1 = VUndefined.
Proof.
  do 5 eexists. repeat split; try (vm_compute; reflexivity).
  intros Heq. apply (f_equal (λ ctx : JobContext, ctx !! "mark"%string)) in Heq.
  vm_compute in Heq. discriminate.
Qed.

(** When the flag is [false] the executor gets the empty context, as on
    every other step. *)
Example executeJobLine_context_not_inheritable :
  map inv_ctx
    (run_invoked (executeJobLine Samples.registry
       (ByValue (Samples.line_of
                   [Samples.plain "marker";
                    {| step_name := "reader"; step_inheritable := Some false;
                       step_args := None |}]))
       Samples.no_options))
  = [∅; ∅].
Proof. vm_compute. reflexivity. Qed.

(** * Further properties of the code *)

(** ** Registries *)

(** X1.  Registering an item under a name the registry does not hold
    returns, after which the name maps to that item, every other name maps
    to what it did, and the other registry is untouched. *)
Theorem register_fresh reg job jobLine :
  (jobs reg !! job_name job = None →
   (registerJob (Some job) reg).1 = Returned ()
   ∧ jobs (registerJob (Some job) reg).2 !! job_name job = Some job
   ∧ (∀ name, name ≠ job_name job →
        jobs (registerJob (Some job) reg).2 !! name = jobs reg !! name)
   ∧ jobLines (registerJob (Some job) reg).2 = jobLines reg)
  ∧ (jobLines reg !! line_name jobLine = None →
     (registerJobLine (Some jobLine) reg).1 = Returned ()
     ∧ jobLines (registerJobLine (Some jobLine) reg).2 !! line_name jobLine = Some jobLine
     ∧ (∀ name, name ≠ line_name jobLine →
          jobLines (registerJobLine (Some jobLine) reg).2 !! name = jobLines reg !! name)
     ∧ jobs (registerJobLine (Some jobLine) reg).2 = jobs reg).
Proof.
  split; intros Hfree.
  - unfold registerJob. rewrite Hfree. simpl. repeat split.
    + apply lookup_insert_eq.
    + intros name Hne. by apply lookup_insert_ne.
  - unfold registerJobLine. rewrite Hfree. simpl. repeat split.
    + apply lookup_insert_eq.
    + intros name Hne. by apply lookup_insert_ne.
Qed.

(** X2.  The registries only grow: whatever is registered next, job or
    line, null or not, accepted or refused, a name that maps to an item
    still maps to that same item afterwards. *)
Theorem registry_insert_only reg (job : option Job) (jobLine : option JobLine) :
  (∀ name held,
     jobs reg !! name = Some held →
     jobs (registerJob job reg).2 !! name = Some held
     ∧ jobs (registerJobLine jobLine reg).2 !! name = Some held)
  ∧ (∀ name held,
       jobLines reg !! name = Some held →
       jobLines (registerJob job reg).2 !! name = Some held
       ∧ jobLines (registerJobLine jobLine reg).2 !! name = Some held).
Proof.
  split; intros name held Hheld; split.
  - unfold registerJob. destruct job as [job|]; [|done].
    destruct (jobs reg !! job_name job) eqn:Hold; simpl; [done|].
    rewrite lookup_insert_ne; [done|]. intros <-. congruence.
  - unfold registerJobLine. destruct jobLine as [jobLine|]; [|done].
    by destruct (jobLines reg !! line_name jobLine).
  - unfold registerJob. destruct job as [job|]; [|done].
    by destruct (jobs reg !! job_name job).
  - unfold registerJobLine. destruct jobLine as [jobLine|]; [|done].
    destruct (jobLines reg !! line_name jobLine) eqn:Hold; simpl; [done|].
    rewrite lookup_insert_ne; [done|]. intros <-. congruence.
Qed.

(** X3.  Once [registerJobLine] has accepted a line, running it by its name
    is running the line itself. *)
Theorem executeJobLine_by_registered_name reg reg' jobLine options :
  registerJobLine (Some jobLine) reg = (Returned (), reg') →
  executeJobLine reg' (ByName (line_name jobLine)) options
  = executeJobLine reg' (ByValue jobLine) options.
Proof.
  unfold registerJobLine.
  destruct (jobLines reg !! line_name jobLine) eqn:Hold; [done|].
  intros [= <-]. unfold executeJobLine. simpl. by rewrite lookup_insert_eq.
Qed.

(** ** More on argument resolution *)

Lemma explicit_args_snoc args arg jobArgs options :
  explicit_args (args ++ [arg]) jobArgs options
  = resolve_arg jobArgs options (explicit_args args jobArgs options) arg.
Proof. unfold explicit_args. by rewrite fold_left_app. Qed.

Lemma buildJobArgs_keys args jobArgs options p :
  is_Some (buildJobArgs args jobArgs options !! p) →
  ∃ formals, jobArgs = Some formals ∧ p ∈ formals.
Proof.
  unfold buildJobArgs.
  destruct args as [args|], jobArgs as [formals|];
    try (rewrite lookup_empty; by intros [? ?]).
  destruct (explicit_args_keys args formals options) as [Hdom Hsub].
  destruct (explicit_args args formals options) as [res assignedArgs]. simpl in *.
  intros Hsome. exists formals. split; [done|].
  assert (Hres : is_Some (res !! p) → p ∈ formals).
  { intros H. apply Hsub. by apply Hdom. }
  destruct (opt_external options) as [external|]; [|auto].
  destruct (length assignedArgs <? length formals); [|auto].
  rewrite fallback_lookup in Hsome. case_bool_decide as Hp; [tauto | auto].
Qed.

(** X4.  The arguments built for a job only have formal parameters of that
    job as keys: an entry for another name is dropped, and the fallback
    copies no other name from [externalArgs]. *)
Theorem buildJobArgs_only_formal_parameters args jobArgs options p :
  is_Some (buildJobArgs args jobArgs options !! p) →
  ∃ formals, jobArgs = Some formals ∧ p ∈ formals.
Proof. apply buildJobArgs_keys. Qed.

(** X5.  The fallback never replaces a value an entry assigned
    ([__proto__] not being a formal parameter): a parameter that is in
    [assignedArgs] has in the result the value the entries left for it,
    whatever [externalArgs] holds under its name. *)
Theorem buildJobArgs_explicit_over_fallback args jobArgs options p :
  "__proto__"%string ∉ jobArgs →
  p ∈ (explicit_args args jobArgs options).2 →
  buildJobArgs (Some args) (Some jobArgs) options !! p
  = (explicit_args args jobArgs options).1 !! p
  ∧ is_Some (buildJobArgs (Some args) (Some jobArgs) options !! p).
Proof.
  intros _ Hin. rewrite (buildJobArgs_assigned _ _ _ _ Hin). split; [done|].
  by apply (proj1 (explicit_args_keys args jobArgs options)).
Qed.

(** X6.  Entries are applied in order, so the last entry for a formal
    parameter decides ([__proto__] not being a formal parameter): a final
    literal entry gives its constant, a final ['external'] entry gives what
    the read [externalArgs[k]] gives, whatever earlier entries and the
    fallback would have given. *)
Theorem buildJobArgs_last_entry_wins args jobArgs options p :
  p ∈ jobArgs →
  "__proto__"%string ∉ jobArgs →
  (∀ v, buildJobArgs (Some (args ++ [Literal p v])) (Some jobArgs) options !! p = Some v)
  ∧ (∀ external k,
       opt_external options = Some external →
       buildJobArgs (Some (args ++ [FromExternal p k])) (Some jobArgs) options !! p
       = Some (record_get external k)).
Proof.
  intros Hp _. split.
  - intros v.
    assert (Hexp : explicit_args (args ++ [Literal p v]) jobArgs options
                   = assign p v (explicit_args args jobArgs options)).
    { rewrite explicit_args_snoc. unfold resolve_arg. simpl.
      by rewrite bool_decide_eq_true_2. }
    rewrite buildJobArgs_assigned; rewrite Hexp; unfold assign; simpl.
    + apply lookup_insert_eq.
    + apply elem_of_app. right. apply list_elem_of_here.
  - intros external k Hext.
    assert (Hexp : explicit_args (args ++ [FromExternal p k]) jobArgs options
                   = assign p (record_get external k) (explicit_args args jobArgs options)).
    { rewrite explicit_args_snoc. unfold resolve_arg. simpl.
      by rewrite bool_decide_eq_true_2, Hext. }
    rewrite buildJobArgs_assigned; rewrite Hexp; unfold assign; simpl.
    + apply lookup_insert_eq.
    + apply elem_of_app. right. apply list_elem_of_here.
Qed.

(** X7.  Inside a run the steps handed to [buildJobArgs] are those stored so
    far.  An entry [[key, n, k]] that points at the current step or a later
    one ([n] not below the number of stored steps), or before the first one
    ([n] negative with [index + n] negative), assigns nothing. *)
Theorem resolve_arg_FromStepAt_out_of_range jobArgs options acc argKey type k :
  (Z.of_nat (length (opt_steps options)) ≤ type)%Z
  ∨ (type < 0 ∧ opt_index options + type < 0)%Z →
  resolve_arg jobArgs options acc (FromStepAt argKey type k) = acc.
Proof.
  intros Hrange. unfold resolve_arg. simpl. case_bool_decide; [|done].
  assert (Hout : step_output options type = VUndefined).
  { unfold step_output. destruct Hrange as [Hge|[Hneg Hbefore]].
    - destruct (Z.ltb_spec type 0); [lia|].
      unfold array_get. destruct (Z.ltb_spec type 0); [lia|].
      rewrite lookup_ge_None_2; [done | lia].
    - destruct (Z.ltb_spec type 0); [|lia].
      by rewrite array_get_negative. }
  by rewrite Hout.
Qed.

(** X8.  With the options [executeJobLine] passes (the index is the number
    of steps stored so far, [previous] is the output of the last of them), an
    entry [[key, PREVIOUS_STEP, k]] does what [[key, -1, k]] does. *)
Theorem resolve_arg_previous_is_minus_one jobArgs options acc argKey k :
  opt_index options = Z.of_nat (length (opt_steps options)) →
  opt_previous options = last_output (opt_steps options) →
  resolve_arg jobArgs options acc (FromPreviousStep argKey k)
  = resolve_arg jobArgs options acc (FromStepAt argKey (-1) k).
Proof.
  intros Hindex Hprevious. unfold resolve_arg. simpl. case_bool_decide; [|done].
  assert (Hout : step_output options (-1) = opt_previous options).
  { unfold step_output. simpl. rewrite Hprevious, Hindex. unfold last_output.
    by replace (Z.of_nat (length (opt_steps options)) + -1)%Z
      with (Z.of_nat (length (opt_steps options)) - 1)%Z by lia. }
  by rewrite Hout.
Qed.

(** ** The required arguments of a line *)

Lemma is_undefined_false v : is_undefined v = false → v ≠ VUndefined.
Proof. intros Hv ->. done. Qed.

(** With the caller's arguments at hand, the [forEach] keeps the values that
    are not [undefined] and lists the names of the others. *)
Lemma collect_args_given o args argKeys externalArgs lackedArgs :
  opts_args o = Some args →
  ∃ kept,
    collect_args (Some o) argKeys externalArgs lackedArgs
    = Returned (kept, lackedArgs ++ lacking args argKeys)
    ∧ ∀ p, kept !! p
           = if bool_decide (p ∈ argKeys ∧ is_undefined (record_get args p) = false)
             then Some (record_get args p)
             else externalArgs !! p.
Proof.
  intros Hargs. revert externalArgs lackedArgs.
  induction argKeys as [|argKey rest IH]; intros externalArgs lackedArgs.
  - exists externalArgs. split; [simpl; by rewrite app_nil_r|].
    intros p. rewrite bool_decide_eq_false_2; [done|]. by intros [?%elem_of_nil _].
  - simpl. unfold option_arg, lacking. rewrite Hargs. simpl.
    assert (Hother : ∀ p, p ≠ argKey →
      bool_decide (p ∈ argKey :: rest ∧ is_undefined (record_get args p) = false)
      = bool_decide (p ∈ rest ∧ is_undefined (record_get args p) = false)).
    { intros p Hne. apply bool_decide_ext. rewrite elem_of_cons. tauto. }
    destruct (is_undefined (record_get args argKey)) eqn:Hund.
    + destruct (IH externalArgs (lackedArgs ++ [argKey])) as (kept & Heq & Hkept).
      exists kept. split.
      * rewrite Heq. unfold lacking. by rewrite <- app_assoc.
      * intros p. rewrite Hkept.
        destruct (decide (p = argKey)) as [->|Hne]; [|by rewrite Hother].
        rewrite !bool_decide_eq_false_2; [done| |]; intros [_ H]; congruence.
    + destruct (IH (<[argKey := record_get args argKey]> externalArgs) lackedArgs)
        as (kept & Heq & Hkept).
      exists kept. split; [done|].
      intros p. rewrite Hkept.
      destruct (decide (p = argKey)) as [->|Hne].
      * rewrite (bool_decide_eq_true_2 (argKey ∈ argKey :: rest ∧ _))
          by (split; [apply list_elem_of_here | done]).
        case_bool_decide; [done | by rewrite lookup_insert_eq].
      * rewrite Hother by done. by rewrite lookup_insert_ne.
Qed.

(** Without [options] every required name is lacking. *)
Lemma collect_args_no_options argKeys externalArgs lackedArgs :
  collect_args None argKeys externalArgs lackedArgs
  = Returned (externalArgs, lackedArgs ++ argKeys).
Proof.
  revert lackedArgs. induction argKeys as [|argKey rest IH]; intros lackedArgs; simpl.
  - by rewrite app_nil_r.
  - rewrite IH. by rewrite <- app_assoc.
Qed.

Lemma length_positive {A} (l : list A) : l ≠ [] → (0 <? length l) = true.
Proof. destruct l; [done|]. intros _. by apply Nat.ltb_lt; simpl; lia. Qed.

(** X9.  When the read [options.args[name]] gives [undefined] for some name
    the line requires ([__proto__] not being one of them), [executeJobLine]
    ends the process, reporting exactly the names without a value in the
    order the line lists them, and no executor has been called. *)
Theorem executeJobLine_missing_arguments reg jobLineName o jobLine argKeys args :
  find_line reg jobLineName = Some jobLine →
  line_args jobLine = Some argKeys →
  "__proto__"%string ∉ argKeys →
  opts_args o = Some args →
  lacking args argKeys ≠ [] →
  executeJobLine reg jobLineName (Some o)
  = {| run_invoked := []; run_outcome := Exited (ArgsMissing (lacking args argKeys)) |}.
Proof.
  intros Hline Hkeys _ Hargs Hlack.
  unfold executeJobLine, external_args. rewrite Hline, Hkeys.
  destruct (collect_args_given o args argKeys ∅ [] Hargs) as (kept & -> & _).
  simpl. by rewrite (length_positive _ Hlack).
Qed.

(** X10.  A line that requires at least one argument and is run without
    [options] ends the process with every required name reported; run with
    [options] that have no [args] it throws a [TypeError] (the read
    [options.args[argKey]]).  No executor is called in either case. *)
Theorem executeJobLine_without_arguments reg jobLineName jobLine argKeys :
  find_line reg jobLineName = Some jobLine →
  line_args jobLine = Some argKeys →
  argKeys ≠ [] →
  executeJobLine reg jobLineName None
  = {| run_invoked := []; run_outcome := Exited (ArgsMissing argKeys) |}
  ∧ ∀ o, opts_args o = None →
      executeJobLine reg jobLineName (Some o)
      = {| run_invoked := []; run_outcome := Threw TypeError |}.
Proof.
  intros Hline Hkeys Hne. split.
  - unfold executeJobLine, external_args. rewrite Hline, Hkeys.
    rewrite collect_args_no_options. simpl. by rewrite (length_positive _ Hne).
  - intros o Hnone. unfold executeJobLine, external_args. rewrite Hline, Hkeys.
    destruct argKeys as [|argKey rest]; [done|].
    simpl. unfold option_arg. by rewrite Hnone.
Qed.

(** What the arguments handed to the steps hold, when the check passes. *)
Lemma external_args_returned jobLine options externalArgs :
  external_args jobLine options = Returned externalArgs →
  (∀ p v, externalArgs !! p = Some v →
     v ≠ VUndefined
     ∧ ∃ argKeys o args,
         line_args jobLine = Some argKeys ∧ p ∈ argKeys
         ∧ options = Some o ∧ opts_args o = Some args ∧ record_get args p = v)
  ∧ (∀ argKeys p, line_args jobLine = Some argKeys → p ∈ argKeys →
       is_Some (externalArgs !! p)).
Proof.
  unfold external_args.
  destruct (line_args jobLine) as [argKeys|] eqn:Hkeys.
  2: { intros [= <-]. split; [intros p v; by rewrite lookup_empty | done]. }
  destruct options as [o|].
  - destruct (opts_args o) as [args|] eqn:Hargs.
    + destruct (collect_args_given o args argKeys ∅ [] Hargs) as (kept & -> & Hkept).
      simpl. destruct (lacking args argKeys) as [|missing rest] eqn:Hlack; [|done].
      simpl. intros [= <-]. split.
      * intros p v. rewrite Hkept, lookup_empty.
        case_bool_decide as Hp; [|done]. destruct Hp as [Hin Hdef].
        intros [= <-]. split; [by apply is_undefined_false|].
        by exists argKeys, o, args.
      * intros keys p [= <-] Hin. rewrite Hkept.
        rewrite bool_decide_eq_true_2; [done|]. split; [done|].
        destruct (is_undefined (record_get args p)) eqn:Hund; [|done].
        assert (Hmem : p ∈ lacking args argKeys).
        { unfold lacking. apply list_elem_of_In, filter_In.
          split; [by apply list_elem_of_In | done]. }
        rewrite Hlack in Hmem. by apply elem_of_nil in Hmem.
    + destruct argKeys as [|argKey rest].
      * simpl. intros [= <-].
        split; [intros p v; by rewrite lookup_empty | by intros ? ? [= <-] ?%elem_of_nil].
      * simpl. unfold option_arg. by rewrite Hargs.
  - rewrite collect_args_no_options. simpl.
    destruct argKeys as [|argKey rest]; [|done].
    simpl. intros [= <-].
    split; [intros p v; by rewrite lookup_empty | by intros ? ? [= <-] ?%elem_of_nil].
Qed.

(** X11.  The journal [executeJobLine] returns carries the line's name.
    When [__proto__] is not among the names the line requires, its input
    holds exactly the required names: each with the value read off the
    caller's arguments ([options.args[name]], a property inherited from
    [Object.prototype] included), never [undefined], and no name the line
    does not require, even if the caller supplied one. *)
Theorem executeJobLine_journal_header reg jobLineName options journal :
  (∀ jobLine argKeys, find_line reg jobLineName = Some jobLine →
     line_args jobLine = Some argKeys → "__proto__"%string ∉ argKeys) →
  run_outcome (executeJobLine reg jobLineName options) = Returned journal →
  ∃ jobLine,
    find_line reg jobLineName = Some jobLine
    ∧ jlj_name journal = line_name jobLine
    ∧ (∀ p v, jlj_input journal !! p = Some v →
         v ≠ VUndefined
         ∧ ∃ argKeys o args,
             line_args jobLine = Some argKeys ∧ p ∈ argKeys
             ∧ options = Some o ∧ opts_args o = Some args
             ∧ record_get args p = v)
    ∧ (∀ argKeys p, line_args jobLine = Some argKeys → p ∈ argKeys →
         is_Some (jlj_input journal !! p)).
Proof.
  intros Hplain. unfold executeJobLine.
  destruct (find_line reg jobLineName) as [jobLine|]; [|done].
  destruct (external_args jobLine options) as [externalArgs|e|why] eqn:Hargs; [|done..].
  assert (Hloop : ∀ todo index st,
    jlj_name (jobLineJournal
      (for_steps reg externalArgs (resumption jobLine externalArgs options) todo index st).2)
    = jlj_name (jobLineJournal st)
    ∧ jlj_input (jobLineJournal
        (for_steps reg externalArgs (resumption jobLine externalArgs options) todo index st).2)
      = jlj_input (jobLineJournal st)).
  { induction todo as [|step rest IH]; intros index st; simpl; [done|].
    unfold loop_body.
    destruct (already_done _); [done|].
    destruct (jobs reg !! step_name step) as [job|]; [|done].
    case_bool_decide; [done|].
    destruct (res_done _); [done|].
    match goal with
    | |- context [for_steps _ _ _ rest (S index) ?next] =>
        destruct (IH (S index) next) as [-> ->]
    end.
    done. }
  destruct (Hloop (line_steps jobLine) 0 (initial_state jobLine externalArgs))
    as [Hname Hinput].
  destruct (for_steps _ _ _ _ _ _) as [[e|] st]; [done|].
  simpl in *. intros [= <-]. exists jobLine.
  assert (Hsettle : jlj_name (settle (jobLineJournal st)) = line_name jobLine
                    ∧ jlj_input (settle (jobLineJournal st)) = externalArgs).
  { unfold settle. by case_bool_decide. }
  destruct Hsettle as [-> ->].
  destruct (external_args_returned _ _ _ Hargs) as [Hheld Hall]. done.
Qed.

(** ** Whole runs, step by step *)

(** A property kept by every turn that goes on holds when the loop is left,
    however it is left. *)
Lemma for_steps_invariant reg externalArgs previous
    (P : nat → LoopState → Prop) (Q : option Error → LoopState → Prop) :
  (∀ index st, P index st → Q None st) →
  (∀ index step st, P index st →
     match loop_body reg externalArgs previous index step st with
     | Continue st' => P (S index) st'
     | Break st' => Q None st'
     | Throw e st' => Q (Some e) st'
     end) →
  ∀ todo index st, P index st →
    Q (for_steps reg externalArgs previous todo index st).1
      (for_steps reg externalArgs previous todo index st).2.
Proof.
  intros Hend Hturn. induction todo as [|step rest IH]; intros index st HP; simpl.
  - by eapply Hend.
  - pose proof (Hturn index step st HP) as Hbody.
    destruct (loop_body reg externalArgs previous index step st); simpl; [|done..].
    by apply IH.
Qed.

(** A call of [executeJobLine] either stops before the loop, with no
    executor called, or is the loop followed by the settling of the
    status. *)
Lemma executeJobLine_shape reg jobLineName options :
  (run_invoked (executeJobLine reg jobLineName options) = []
   ∧ ((∃ why, run_outcome (executeJobLine reg jobLineName options) = Exited why)
      ∨ run_outcome (executeJobLine reg jobLineName options) = Threw TypeError))
  ∨ ∃ jobLine externalArgs,
      find_line reg jobLineName = Some jobLine
      ∧ external_args jobLine options = Returned externalArgs
      ∧ executeJobLine reg jobLineName options
        = let r := for_steps reg externalArgs (resumption jobLine externalArgs options)
                     (line_steps jobLine) 0 (initial_state jobLine externalArgs) in
          {| run_invoked := invoked r.2;
             run_outcome := match r.1 with
                            | Some e => Threw e
                            | None => Returned (settle (jobLineJournal r.2))
                            end |}.
Proof.
  destruct (find_line reg jobLineName) as [jobLine|] eqn:Hline.
  2: { left. unfold executeJobLine. rewrite Hline. simpl. split; [done|]. left. by eexists. }
  destruct (external_args jobLine options) as [externalArgs|e|why] eqn:Hargs.
  - right. exists jobLine, externalArgs. split; [done|]. split; [done|].
    by apply executeJobLine_run.
  - left. unfold executeJobLine. rewrite Hline, Hargs. simpl. split; [done|]. right.
    by rewrite (external_args_threw _ _ _ Hargs).
  - left. unfold executeJobLine. rewrite Hline, Hargs. simpl. split; [done|]. left.
    by eexists.
Qed.

Lemma resumption_entry jobLine externalArgs options index :
  array_get (jlj_steps (resumption jobLine externalArgs options)) (Z.of_nat index)
  = prior_entry options index.
Proof.
  unfold resumption, prior_entry.
  destruct (options ≫= opts_previousJobLineJournal); [done|]. apply array_get_empty.
Qed.

Lemma executeOneJob_recorded job ctx args prior :
  recorded prior (res_journal (executeOneJob job ctx args prior))
    (res_call (executeOneJob job ctx args prior)).
Proof.
  unfold recorded. rewrite executeOneJob_call. simpl.
  destruct (exec_settled (job_executor job (default ∅ ctx) args)) as [o|e] eqn:Hs.
  - destruct (executeOneJob_fulfilled job ctx args prior o Hs) as (Hst & Hout & _).
    unfold executeOneJob in *. destruct ctx; simpl in *; rewrite Hs in *;
      destruct prior; simpl in *; done.
  - destruct (executeOneJob_rejected job ctx args prior e Hs) as (Hst & Hout).
    unfold executeOneJob in *. destruct ctx; simpl in *; rewrite Hs in *;
      destruct prior; simpl in *; done.
Qed.

(** What a turn does to the calls and the stored journals: nothing, or one
    call and one journal more, at the turn's index. *)
Lemma loop_body_appends reg externalArgs previous index step st :
  length (jlj_steps (jobLineJournal st)) = index →
  match loop_body reg externalArgs previous index step st with
  | Continue st' =>
      ∃ journal c,
        jlj_steps (jobLineJournal st') = jlj_steps (jobLineJournal st) ++ [Some journal]
        ∧ invoked st' = invoked st ++ [c]
        ∧ recorded (array_get (jlj_steps previous) (Z.of_nat index)) journal c
        ∧ quiet c
  | Break st' =>
      st' = st
      ∨ ∃ journal c,
          jlj_steps (jobLineJournal st') = jlj_steps (jobLineJournal st) ++ [Some journal]
          ∧ invoked st' = invoked st ++ [c]
          ∧ recorded (array_get (jlj_steps previous) (Z.of_nat index)) journal c
  | Throw e st' =>
      st' = st ∧ e = JobMissing (step_name step) ∧ jobs reg !! step_name step = None
  end.
Proof.
  intros Hlen. unfold loop_body.
  destruct (already_done _); [by left|].
  destruct (jobs reg !! step_name step) as [job|] eqn:Hjob; [|done].
  set (args := buildJobArgs _ _ _).
  set (prior := array_get (jlj_steps previous) (Z.of_nat index)).
  pose proof (executeOneJob_recorded job (context_for step (previousContext st)) args prior)
    as Hrec.
  pose proof (executeOneJob_call job (context_for step (previousContext st)) args prior)
    as Hcall.
  set (res := executeOneJob _ _ _ _) in *.
  assert (Hstore : array_set (jlj_steps (jobLineJournal st)) index (res_journal res)
                   = jlj_steps (jobLineJournal st) ++ [Some (res_journal res)]).
  { rewrite <- Hlen. apply array_set_end. }
  case_bool_decide as Hstatus.
  { right. exists (res_journal res), (res_call res). simpl. by rewrite Hstore. }
  destruct (res_done res) eqn:Hdone.
  { right. exists (res_journal res), (res_call res). simpl. by rewrite Hstore. }
  exists (res_journal res), (res_call res). simpl. rewrite Hstore.
  split; [done|]. split; [done|]. split; [done|].
  assert (Hok : jj_status (res_journal res) = Some Done).
  { destruct (decide (jj_status (res_journal res) = Some Done)); [done | by destruct Hstatus]. }
  destruct Hrec as (_ & _ & Hrec). unfold quiet, fulfilled.
  destruct (exec_settled (inv_run (res_call res))) as [o|e] eqn:Hs.
  - split; [by exists o|].
    rewrite Hcall in Hs |- *. simpl in *.
    destruct (executeOneJob_fulfilled job (context_for step (previousContext st)) args
                prior o Hs) as (_ & _ & Hd).
    fold res in Hd. congruence.
  - destruct Hrec as [_ Hexc]. congruence.
Qed.

(** The calls made and the journals stored by the loop, started on the
    empty journal: one journal per call, each recording its call; every call
    but the last returned without [done()]. *)
Lemma for_steps_records reg externalArgs previous todo jobLine :
  let r := for_steps reg externalArgs previous todo 0 (initial_state jobLine externalArgs) in
  length (jlj_steps (jobLineJournal r.2)) = length (invoked r.2)
  ∧ (∀ i c, invoked r.2 !! i = Some c →
       ∃ journal, jlj_steps (jobLineJournal r.2) !! i = Some (Some journal)
                  ∧ recorded (array_get (jlj_steps previous) (Z.of_nat i)) journal c)
  ∧ (Forall quiet (invoked r.2)
     ∨ (r.1 = None ∧ ∃ init c, invoked r.2 = init ++ [c] ∧ Forall quiet init)).
Proof.
  simpl.
  apply (for_steps_invariant reg externalArgs previous
    (λ index st,
       length (jlj_steps (jobLineJournal st)) = index
       ∧ length (invoked st) = index
       ∧ (∀ i c, invoked st !! i = Some c →
            ∃ journal, jlj_steps (jobLineJournal st) !! i = Some (Some journal)
                       ∧ recorded (array_get (jlj_steps previous) (Z.of_nat i)) journal c)
       ∧ Forall quiet (invoked st))
    (λ err st,
       length (jlj_steps (jobLineJournal st)) = length (invoked st)
       ∧ (∀ i c, invoked st !! i = Some c →
            ∃ journal, jlj_steps (jobLineJournal st) !! i = Some (Some journal)
                       ∧ recorded (array_get (jlj_steps previous) (Z.of_nat i)) journal c)
       ∧ (Forall quiet (invoked st)
          ∨ (err = None ∧ ∃ init c, invoked st = init ++ [c] ∧ Forall quiet init)))).
  - intros index st (Hl & Hn & Hrec & Hq). split; [congruence|]. split; [done | by left].
  - intros index step st (Hl & Hn & Hrec & Hq).
    pose proof (loop_body_appends reg externalArgs previous index step st Hl) as Hbody.
    assert (Hnew : ∀ st' journal c,
      jlj_steps (jobLineJournal st') = jlj_steps (jobLineJournal st) ++ [Some journal] →
      invoked st' = invoked st ++ [c] →
      recorded (array_get (jlj_steps previous) (Z.of_nat index)) journal c →
      length (jlj_steps (jobLineJournal st')) = S index
      ∧ length (invoked st') = S index
      ∧ ∀ i c', invoked st' !! i = Some c' →
          ∃ journal', jlj_steps (jobLineJournal st') !! i = Some (Some journal')
                      ∧ recorded (array_get (jlj_steps previous) (Z.of_nat i)) journal' c').
    { intros st' journal c Hsteps Hcalls Hr. rewrite Hsteps, Hcalls, !length_app. simpl.
      split; [lia|]. split; [lia|].
      intros i c' Hi. destruct (decide (i < index)) as [Hlt|Hge].
      - rewrite lookup_app_l in Hi by lia. rewrite lookup_app_l by lia. by apply Hrec.
      - assert (i = index) as ->.
        { apply lookup_lt_Some in Hi. rewrite length_app in Hi. simpl in Hi. lia. }
        rewrite <- Hn in Hi at 1. rewrite list_lookup_middle in Hi by done.
        injection Hi as <-. exists journal.
        rewrite <- Hl at 1. by rewrite list_lookup_middle. }
    destruct (loop_body reg externalArgs previous index step st) as [st'|st'|e st'].
    + destruct Hbody as (journal & c & Hsteps & Hcalls & Hr & Hquiet).
      destruct (Hnew st' journal c Hsteps Hcalls Hr) as (? & ? & ?).
      repeat split; try done. rewrite Hcalls. apply Forall_app. split; [done|].
      by apply Forall_singleton.
    + destruct Hbody as [->|(journal & c & Hsteps & Hcalls & Hr)].
      * split; [congruence|]. split; [done | by left].
      * destruct (Hnew st' journal c Hsteps Hcalls Hr) as (? & ? & ?).
        split; [congruence|]. split; [done|]. right. split; [done|].
        by exists (invoked st), c.
    + destruct Hbody as (-> & _). split; [congruence|]. split; [done | by left].
  - simpl. repeat split; done.
Qed.

(** X12.  An executor that calls [done()] is the last one the run calls:
    the call returns a journal with one entry per executor called, and its
    status is [done] when that executor returned. *)
Theorem executeJobLine_done_signal reg jobLineName options i c :
  run_invoked (executeJobLine reg jobLineName options) !! i = Some c →
  exec_done (inv_run c) = true →
  S i = length (run_invoked (executeJobLine reg jobLineName options))
  ∧ ∃ journal,
      run_outcome (executeJobLine reg jobLineName options) = Returned journal
      ∧ length (jlj_steps journal) = S i
      ∧ (fulfilled c → jlj_status journal = Some Done).
Proof.
  destruct (executeJobLine_shape reg jobLineName options)
    as [[Hnil _]|(jobLine & externalArgs & Hline & Hargs & ->)].
  { rewrite Hnil. by rewrite lookup_nil. }
  pose proof (for_steps_records reg externalArgs
                (resumption jobLine externalArgs options) (line_steps jobLine) jobLine)
    as (Hlen & _ & Hquiet).
  destruct (for_steps_steady reg externalArgs (resumption jobLine externalArgs options)
              (line_steps jobLine) 0 _ (initial_state_steady jobLine externalArgs))
    as [Hleft _].
  simpl in *.
  destruct (for_steps _ _ _ _ _ _) as [err st]. simpl in *.
  intros Hi Hdone.
  destruct Hquiet as [Hall|(-> & init & c' & Hcalls & Hinit)].
  { rewrite Forall_forall in Hall.
    destruct (Hall c (list_elem_of_lookup_2 _ _ _ Hi)) as [_ Hno]. congruence. }
  rewrite Hcalls in Hi.
  destruct (decide (i < length init)) as [Hlt|Hge].
  { rewrite lookup_app_l in Hi by done. rewrite Forall_forall in Hinit.
    destruct (Hinit c (list_elem_of_lookup_2 _ _ _ Hi)) as [_ Hno]. congruence. }
  assert (i = length init) as ->.
  { apply lookup_lt_Some in Hi. rewrite length_app in Hi. simpl in Hi. lia. }
  rewrite list_lookup_middle in Hi by done. injection Hi as ->.
  assert (Hcount : S (length init) = length (invoked st)).
  { rewrite Hcalls, length_app. simpl. lia. }
  split; [done|].
  exists (settle (jobLineJournal st)). rewrite settle_steps.
  split; [done|]. split; [congruence|].
  intros Hful.
  destruct (left_ended _ _ Hleft)
    as [(Hs & _)|(_ & cells & last & calls & c'' & err & _ & _ & _ & Hcalls' & _ & Hrej)].
  - by apply settle_pending.
  - rewrite Hcalls in Hcalls'. apply app_inj_tail in Hcalls' as [_ <-].
    destruct (fulfilled_not_rejected c err Hful Hrej).
Qed.

(** X13.  The journal [executeJobLine] returns has one entry per executor
    called, in order and without holes, and the entry at an index records the
    call at that index: its name and input are those of the caller's earlier
    entry at that index when there is one (not the arguments of this run)
    and the job's name and the arguments built otherwise; its output and
    status are those the call gave. *)
Theorem executeJobLine_journal_records_calls reg jobLineName options journal :
  run_outcome (executeJobLine reg jobLineName options) = Returned journal →
  length (jlj_steps journal) = length (run_invoked (executeJobLine reg jobLineName options))
  ∧ (∀ i c, run_invoked (executeJobLine reg jobLineName options) !! i = Some c →
       ∃ entry, jlj_steps journal !! i = Some (Some entry)
                ∧ recorded (prior_entry options i) entry c)
  ∧ Forall is_Some (jlj_steps journal).
Proof.
  destruct (executeJobLine_shape reg jobLineName options)
    as [[_ [[why Hout]|Hout]]|(jobLine & externalArgs & Hline & Hargs & ->)];
    [by rewrite Hout..|].
  pose proof (for_steps_records reg externalArgs
                (resumption jobLine externalArgs options) (line_steps jobLine) jobLine)
    as (Hlen & Hrec & _).
  simpl in *.
  destruct (for_steps _ _ _ _ _ _) as [[e|] st]; simpl in *; [done|].
  intros [= <-]. rewrite settle_steps.
  assert (Hall : ∀ i c, invoked st !! i = Some c →
            ∃ entry, jlj_steps (jobLineJournal st) !! i = Some (Some entry)
                     ∧ recorded (prior_entry options i) entry c).
  { intros i c Hi. destruct (Hrec i c Hi) as (entry & Hentry & Hr).
    exists entry. split; [done|]. by rewrite <- (resumption_entry jobLine externalArgs). }
  split; [done|]. split; [done|].
  apply Forall_lookup. intros i cell Hcell.
  assert (Hlt : i < length (invoked st)).
  { rewrite <- Hlen. by eapply lookup_lt_Some. }
  destruct (lookup_lt_is_Some_2 _ _ Hlt) as [c Hc].
  destruct (Hall i c Hc) as (entry & Hentry & _).
  rewrite Hentry in Hcell. injection Hcell as <-. by eexists.
Qed.

(** A turn on a registered, well-behaved job, with no earlier entry marked
    [done] at its index, goes on. *)
Lemma loop_body_well_behaved reg externalArgs previous index step st job :
  already_done (array_get (jlj_steps previous) (Z.of_nat index)) = false →
  jobs reg !! step_name step = Some job →
  well_behaved job →
  ∃ st', loop_body reg externalArgs previous index step st = Continue st'.
Proof.
  intros Hfresh Hjob Hgood. unfold loop_body. rewrite Hfresh, Hjob.
  set (args := buildJobArgs _ _ _).
  destruct (Hgood (default ∅ (context_for step (previousContext st))) args)
    as (output & Hs & Hd).
  destruct (executeOneJob_fulfilled job (context_for step (previousContext st)) args
              (array_get (jlj_steps previous) (Z.of_nat index)) output Hs)
    as (Hstatus & _ & Hdone).
  rewrite bool_decide_eq_false_2 by (rewrite Hstatus; tauto).
  rewrite Hdone, Hd. by eexists.
Qed.

Lemma passes_well_behaved reg externalArgs previous pre index st :
  jlj_steps previous = [] →
  (∀ step, step ∈ pre → ∃ job, jobs reg !! step_name step = Some job ∧ well_behaved job) →
  ∃ st', passes reg externalArgs previous pre index st = Some st'.
Proof.
  intros Hempty. revert index st.
  induction pre as [|step rest IH]; intros index st Hjobs; simpl; [by eexists|].
  destruct (Hjobs step (list_elem_of_here _ _)) as (job & Hjob & Hgood).
  destruct (loop_body_well_behaved reg externalArgs previous index step st job)
    as [st' ->]; [|done..|].
  { rewrite Hempty. by rewrite array_get_empty. }
  apply IH. intros step' Hin. apply Hjobs. by apply list_elem_of_further.
Qed.

(** X14.  A line whose required arguments are there, run without an earlier
    journal, each step naming a registered job whose executor returns and
    does not call [done()], runs to its end: every step's executor is called
    once, the journal has one [done] entry per step, and the line's status is
    [done]. *)
Theorem executeJobLine_runs_to_the_end reg jobLineName options jobLine externalArgs :
  find_line reg jobLineName = Some jobLine →
  external_args jobLine options = Returned externalArgs →
  options ≫= opts_previousJobLineJournal = None →
  (∀ step, step ∈ line_steps jobLine →
     ∃ job, jobs reg !! step_name step = Some job ∧ well_behaved job) →
  length (run_invoked (executeJobLine reg jobLineName options)) = length (line_steps jobLine)
  ∧ ∃ journal,
      run_outcome (executeJobLine reg jobLineName options) = Returned journal
      ∧ jlj_status journal = Some Done
      ∧ length (jlj_steps journal) = length (line_steps jobLine)
      ∧ Forall done_cell (jlj_steps journal).
Proof.
  intros Hline Hargs Hfresh Hjobs.
  rewrite (executeJobLine_run _ _ _ _ _ Hline Hargs).
  assert (Hempty : jlj_steps (resumption jobLine externalArgs options) = []).
  { unfold resumption. by rewrite Hfresh. }
  destruct (passes_well_behaved reg externalArgs (resumption jobLine externalArgs options)
              (line_steps jobLine) 0 (initial_state jobLine externalArgs) Hempty Hjobs)
    as [st Hpass].
  pose proof (for_steps_passes _ _ _ _ [] _ _ _ Hpass) as Hloop.
  rewrite app_nil_r in Hloop. rewrite Hloop. simpl.
  destruct (passes_steady _ _ _ _ _ _ _ (initial_state_steady jobLine externalArgs) Hpass)
    as [Hs Hl Hc Hn Hf Hx Hp].
  simpl in *. split; [done|].
  exists (settle (jobLineJournal st)). rewrite settle_steps.
  split; [done|]. split; [by apply settle_pending | done].
Qed.

Lemma for_steps_throws reg externalArgs previous todo index st e :
  (for_steps reg externalArgs previous todo index st).1 = Some e →
  ∃ step, step ∈ todo ∧ e = JobMissing (step_name step)
          ∧ jobs reg !! step_name step = None.
Proof.
  revert index st. induction todo as [|step rest IH]; intros index st; simpl; [done|].
  destruct (loop_body reg externalArgs previous index step st) as [st'|st'|e' st'] eqn:Hbody.
  - intros Hthrow. destruct (IH _ _ Hthrow) as (step' & Hin & Heq).
    exists step'. split; [by apply list_elem_of_further | done].
  - done.
  - simpl. intros [= <-]. exists step. split; [apply list_elem_of_here|].
    unfold loop_body in Hbody.
    destruct (already_done _); [done|].
    destruct (jobs reg !! step_name step) as [job|] eqn:Hjob.
    + case_bool_decide; [done|]. by destruct (res_done _).
    + by injection Hbody as <- _.
Qed.

(** X15.  [executeJobLine] throws in two cases only: a [TypeError], before
    any executor is called (arguments required and [options] without
    [args]); or the error naming the job of one of the line's steps, that
    job not being in the registry. *)
Theorem executeJobLine_thrown_errors reg jobLineName options e :
  run_outcome (executeJobLine reg jobLineName options) = Threw e →
  (e = TypeError ∧ run_invoked (executeJobLine reg jobLineName options) = [])
  ∨ ∃ jobLine step,
      find_line reg jobLineName = Some jobLine
      ∧ step ∈ line_steps jobLine
      ∧ e = JobMissing (step_name step)
      ∧ jobs reg !! step_name step = None.
Proof.
  destruct (executeJobLine_shape reg jobLineName options)
    as [[Hnil [[why Hout]|Hout]]|(jobLine & externalArgs & Hline & Hargs & ->)].
  - by rewrite Hout.
  - rewrite Hout. intros [= <-]. by left.
  - simpl.
    destruct (for_steps _ _ _ _ _ _) as [[e'|] st] eqn:Hloop; simpl; [|done].
    intros [= <-]. right.
    destruct (for_steps_throws reg externalArgs (resumption jobLine externalArgs options)
                (line_steps jobLine) 0 (initial_state jobLine externalArgs) e')
      as (step & Hin & He & Hnone); [by rewrite Hloop|].
    by exists jobLine, step.
Qed.

(** The call a turn makes, when it makes one, is the call of its step. *)
Lemma loop_body_call reg externalArgs previous index step st :
  match loop_body reg externalArgs previous index step st with
  | Continue st' => ∃ c, invoked st' = invoked st ++ [c] ∧ call_of_step reg step c
  | Break st' =>
      st' = st ∨ ∃ c, invoked st' = invoked st ++ [c] ∧ call_of_step reg step c
  | Throw _ st' => st' = st
  end.
Proof.
  unfold loop_body.
  destruct (already_done _); [by left|].
  destruct (jobs reg !! step_name step) as [job|] eqn:Hjob; [|done].
  set (args := buildJobArgs _ _ _).
  pose proof (executeOneJob_call job (context_for step (previousContext st)) args
                (array_get (jlj_steps previous) (Z.of_nat index))) as Hcall.
  set (res := executeOneJob _ _ _ _) in *.
  assert (Hstep : call_of_step reg step (res_call res)).
  { exists job. rewrite Hcall. simpl. repeat split; try done.
    intros p Hp. by apply (buildJobArgs_keys _ _ _ _ Hp). }
  case_bool_decide; [|destruct (res_done res)]; simpl.
  - right. by exists (res_call res).
  - right. by exists (res_call res).
  - by exists (res_call res).
Qed.

Lemma for_steps_calls_steps reg externalArgs previous all todo pre st :
  all = pre ++ todo →
  length (invoked st) = length pre →
  (∀ i c, invoked st !! i = Some c →
     ∃ step, all !! i = Some step ∧ call_of_step reg step c) →
  ∀ i c, invoked (for_steps reg externalArgs previous todo (length pre) st).2 !! i = Some c →
    ∃ step, all !! i = Some step ∧ call_of_step reg step c.
Proof.
  revert pre st. induction todo as [|step rest IH]; intros pre st Hall Hlen Hinv; simpl;
    [done|].
  assert (Hnew : ∀ st' c,
    invoked st' = invoked st ++ [c] → call_of_step reg step c →
    ∀ i c', invoked st' !! i = Some c' →
      ∃ step', all !! i = Some step' ∧ call_of_step reg step' c').
  { intros st' c Hc Hstep i c' Hi. rewrite Hc in Hi.
    destruct (decide (i < length (invoked st))) as [Hlt|Hge].
    - rewrite lookup_app_l in Hi by done. by apply Hinv.
    - assert (i = length (invoked st)) as ->.
      { apply lookup_lt_Some in Hi. rewrite length_app in Hi. simpl in Hi. lia. }
      rewrite list_lookup_middle in Hi by done. injection Hi as <-.
      exists step. split; [|done]. rewrite Hall, Hlen. by apply list_lookup_middle. }
  pose proof (loop_body_call reg externalArgs previous (length pre) step st) as Hcall.
  destruct (loop_body reg externalArgs previous (length pre) step st)
    as [st'|st'|e st']; simpl.
  - destruct Hcall as (c & Hc & Hstep).
    replace (S (length pre)) with (length (pre ++ [step]))
      by (rewrite length_app; simpl; lia).
    apply IH.
    + by rewrite <- app_assoc.
    + rewrite Hc, !length_app. simpl. lia.
    + by apply (Hnew st' c).
  - destruct Hcall as [->|(c & Hc & Hstep)]; [done | by apply (Hnew st' c)].
  - by destruct Hcall.
Qed.

(** X16.  The executors are called in the order of the line's steps, one per
    step from the first on: the call at an index is the call of the step at
    that index, that is the job registered under the step's name, run on
    arguments whose keys are all formal parameters of that job. *)
Theorem executeJobLine_calls_follow_steps reg jobLineName options i c :
  run_invoked (executeJobLine reg jobLineName options) !! i = Some c →
  ∃ jobLine step,
    find_line reg jobLineName = Some jobLine
    ∧ line_steps jobLine !! i = Some step
    ∧ call_of_step reg step c.
Proof.
  destruct (executeJobLine_shape reg jobLineName options)
    as [[Hnil _]|(jobLine & externalArgs & Hline & Hargs & ->)].
  { rewrite Hnil. by rewrite lookup_nil. }
  simpl. intros Hi.
  destruct (for_steps_calls_steps reg externalArgs (resumption jobLine externalArgs options)
              (line_steps jobLine) (line_steps jobLine) [] (initial_state jobLine externalArgs)
              eq_refl eq_refl) with (i := i) (c := c) as (step & Hstep & Hcall).
  - intros j c'. simpl. by rewrite lookup_nil.
  - simpl. by destruct (for_steps _ _ _ _ _ _).
  - by exists jobLine, step.
Qed.

(** ** A line whose second step throws *)



End Properties.

(** * The theorems at work on the sample jobs *)

#[local] Existing Instance Samples.runtime.

Lemma executeJobLine_stops_at_done_entry_witness :
  ∃ st,
    run_invoked (executeJobLine Samples.registry (ByValue Samples.mark_then_read)
                   (Samples.resume_from [None; Some (Samples.done_journal "reader")]))
    = invoked st
    ∧ length (run_invoked (executeJobLine Samples.registry (ByValue Samples.mark_then_read)
                (Samples.resume_from [None; Some (Samples.done_journal "reader")]))) = 1
    ∧ ∃ journal,
        run_outcome (executeJobLine Samples.registry (ByValue Samples.mark_then_read)
                       (Samples.resume_from [None; Some (Samples.done_journal "reader")]))
        = Returned journal
        ∧ jlj_steps journal = jlj_steps (jobLineJournal st)
        ∧ length (jlj_steps journal) = 1
        ∧ jlj_status journal = Some Done.
Proof.
  eexists.
  eapply (executeJobLine_stops_at_done_entry Samples.registry
            (ByValue Samples.mark_then_read) _ _ Samples.mark_then_read ∅
            [Samples.plain "marker"] (Samples.plain "reader") []).
  - reflexivity.
  - reflexivity.
  - reflexivity.
  - reflexivity.
  - vm_compute. reflexivity.
  - reflexivity.
  - reflexivity.
Defined.

Lemma executeJobLine_unknown_job_witness :
  ∃ st,
    executeJobLine Samples.registry
      (ByValue (Samples.line_of [Samples.plain "marker"; Samples.plain "ghost";
                                 Samples.plain "reader"]))
      Samples.no_options
    = {| run_invoked := invoked st; run_outcome := Threw (JobMissing "ghost") |}
    ∧ length (invoked st) = 1.
Proof.
  eexists.
  eapply (executeJobLine_unknown_job Samples.registry _ Samples.no_options
            (Samples.line_of [Samples.plain "marker"; Samples.plain "ghost";
                              Samples.plain "reader"]) ∅
            [Samples.plain "marker"] (Samples.plain "ghost") [Samples.plain "reader"]).
  - reflexivity.
  - reflexivity.
  - reflexivity.
  - vm_compute. reflexivity.
  - reflexivity.
  - reflexivity.
Defined.

Lemma executeJobLine_steps_bounded_witness :
  ∃ journal,
    run_outcome (executeJobLine Samples.registry (ByValue Samples.three_steps)
                   Samples.no_options) = Returned journal
    ∧ ∃ jobLine,
        find_line Samples.registry (ByValue Samples.three_steps) = Some jobLine
        ∧ length (jlj_steps journal) ≤ length (line_steps jobLine).
Proof.
  eexists. split.
  - vm_compute. reflexivity.
  - apply (executeJobLine_steps_bounded Samples.registry (ByValue Samples.three_steps)
             Samples.no_options).
    vm_compute. reflexivity.
Defined.

Lemma executeJobLine_status_witness :
  ∃ journal,
    run_outcome (executeJobLine Samples.registry (ByValue Samples.three_steps)
                   Samples.no_options) = Returned journal
    ∧ jlj_status journal = Some Exception
    ∧ jlj_status journal ≠ Some Pending.
Proof.
  eexists. split; [vm_compute; reflexivity|]. split; [reflexivity|].
  eapply (executeJobLine_status Samples.registry (ByValue Samples.three_steps)
            Samples.no_options).
  vm_compute. reflexivity.
Defined.

Lemma executor_failure_is_journal_state_witness :
  (jj_status (res_journal (executeOneJob Samples.failing None ∅
                             (Some (Samples.done_journal "failing")))) = Some Exception
   ∧ jj_output (res_journal (executeOneJob Samples.failing None ∅
                               (Some (Samples.done_journal "failing")))) = VNum 1)
  ∧ ∃ journal,
      run_outcome (executeJobLine Samples.registry (ByValue Samples.three_steps)
                     Samples.no_options) = Returned journal
      ∧ jlj_status journal = Some Exception.
Proof.
  split.
  - apply (proj1 executor_failure_is_journal_state Samples.failing None ∅
             (Some (Samples.done_journal "failing")) (VStr "boom")).
    reflexivity.
  - eapply (proj2 executor_failure_is_journal_state Samples.registry
              (ByValue Samples.three_steps) Samples.no_options
              {| inv_job := "failing"; inv_ctx := ∅; inv_args := ∅;
                 inv_run := job_executor Samples.failing ∅ ∅ |} (VStr "boom")).
    + vm_compute. apply list_elem_of_further, list_elem_of_here.
    + reflexivity.
Defined.

Lemma register_same_name_twice_witness :
  registerJob (Some Samples.marker) (registerJob (Some Samples.marker) empty_registry).2
  = (Threw (JobExists "marker"), (registerJob (Some Samples.marker) empty_registry).2)
  ∧ registerJobLine (Some Samples.three_steps)
      (registerJobLine (Some Samples.mark_then_read) empty_registry).2
    = (Threw (JobLineExists "line"),
       (registerJobLine (Some Samples.mark_then_read) empty_registry).2).
Proof.
  pose proof (register_same_name_twice empty_registry Samples.marker Samples.marker
                Samples.mark_then_read Samples.three_steps eq_refl eq_refl) as H.
  simpl in H. destruct H as ((H1 & _) & (H2 & _) & _). split; [exact H1 | exact H2].
Defined.

Lemma buildJobArgs_FromStepAt_witness :
  buildJobArgs (Some ([Literal "y" (VNum 1)] ++ FromStepAt "y" (-1) "out" :: []))
    (Some ["y"%string])
    {| opt_external := None; opt_previous := VUndefined;
       opt_steps := [Some (Samples.done_journal "marker");
                     Some {| jj_name := "reader"; jj_input := ∅;
                             jj_output := VObj [("out"%string, VNum 5)];
                             jj_status := Some Done |}];
       opt_index := 2 |} !! "y"%string
  = Some (VNum 5).
Proof.
  apply (buildJobArgs_FromStepAt [Literal "y" (VNum 1)] [] ["y"%string]
           {| opt_external := None; opt_previous := VUndefined;
              opt_steps := [Some (Samples.done_journal "marker");
                            Some {| jj_name := "reader"; jj_input := ∅;
                                    jj_output := VObj [("out"%string, VNum 5)];
                                    jj_status := Some Done |}];
              opt_index := 2 |} "y"%string (-1)%Z "out"%string).
  - apply list_elem_of_here.
  - intros Hin. apply list_elem_of_singleton in Hin. discriminate.
  - intros arg Hin. by apply elem_of_nil in Hin.
Defined.

Lemma buildJobArgs_same_name_fallback_witness :
  buildJobArgs (Some [Literal "a" (VNum 1)]) (Some ["a"%string; "b"%string])
    {| opt_external := Some (<["b"%string := VNum 7]> ∅); opt_previous := VUndefined;
       opt_steps := []; opt_index := 0 |} !! "b"%string
  = Some (record_get (<["b"%string := VNum 7]> ∅) "b").
Proof.
  refine (proj1 (proj2 (proj2 buildJobArgs_same_name_fallback) [Literal "a" (VNum 1)]
                   ["a"%string; "b"%string]
                   {| opt_external := Some (<["b"%string := VNum 7]> ∅);
                      opt_previous := VUndefined; opt_steps := []; opt_index := 0 |}
                   "b"%string _ _ _) (<["b"%string := VNum 7]> ∅) eq_refl _).
  - apply list_elem_of_further, list_elem_of_here.
  - intros [H|H]%elem_of_cons; [discriminate|].
    apply list_elem_of_singleton in H. discriminate.
  - vm_compute. intros [H|H]%elem_of_cons; [discriminate | by apply elem_of_nil in H].
  - vm_compute. apply NoDup_singleton.
Defined.

(** C3 fails as stated.  On a step that has no [args] list: [reader] has
    the formal parameter [y], no entry assigns it, [externalArgs] holds
    [y = 7], and yet [y] is not in the arguments built, neither by
    [buildJobArgs] alone nor in what the executor gets from [executeJobLine].
    And where the fallback runs: the formal parameter [z], which no entry
    assigns and [externalArgs] does not hold, is a key of the result, with
    the value [undefined]. *)
Lemma buildJobArgs_fallback_counterexample :
  (job_args Samples.reader = Some ["y"%string]
   ∧ step_args (Samples.plain "reader") = None
   ∧ opt_external Samples.external_y = Some (<["y"%string := VNum 7]> ∅)
   ∧ record_get (<["y"%string := VNum 7]> ∅) "y" = VNum 7
   ∧ buildJobArgs (step_args (Samples.plain "reader")) (job_args Samples.reader)
       Samples.external_y !! "y"%string = None
   ∧ map inv_args (run_invoked (executeJobLine Samples.registry
                                  (ByValue Samples.line_with_y) Samples.y_is_7))
     = [∅])
  ∧ ((<["y"%string := VNum 7]> ∅ : AnyRecord) !! "z"%string = None
     ∧ buildJobArgs (Some []) (Some ["z"%string]) Samples.external_y !! "z"%string
       = Some VUndefined).
Proof. repeat split; vm_compute; reflexivity. Qed.

Lemma register_fresh_witness :
  jobs (registerJob (Some Samples.marker) empty_registry).2 !! "marker"%string
  = Some Samples.marker
  ∧ jobLines (registerJobLine (Some Samples.three_steps) empty_registry).2 !! "line"%string
    = Some Samples.three_steps.
Proof.
  split.
  - apply (proj1 (register_fresh empty_registry Samples.marker Samples.three_steps)).
    reflexivity.
  - apply (proj2 (register_fresh empty_registry Samples.marker Samples.three_steps)).
    reflexivity.
Defined.

Lemma registry_insert_only_witness :
  jobs (registerJob (Some Samples.stopper) Samples.registry).2 !! "marker"%string
  = Some Samples.marker
  ∧ jobs (registerJobLine (Some Samples.three_steps) Samples.registry).2 !! "marker"%string
    = Some Samples.marker.
Proof.
  apply (proj1 (registry_insert_only Samples.registry (Some Samples.stopper)
                  (Some Samples.three_steps)) "marker"%string Samples.marker).
  reflexivity.
Defined.

Lemma executeJobLine_by_registered_name_witness :
  executeJobLine (registerJobLine (Some Samples.three_steps) Samples.registry).2
    (ByName "line") Samples.no_options
  = executeJobLine (registerJobLine (Some Samples.three_steps) Samples.registry).2
      (ByValue Samples.three_steps) Samples.no_options.
Proof.
  apply (executeJobLine_by_registered_name Samples.registry _ Samples.three_steps).
  reflexivity.
Defined.

Lemma buildJobArgs_only_formal_parameters_witness :
  ∃ formals, Some ["y"%string] = Some formals ∧ "y"%string ∈ formals.
Proof.
  apply (buildJobArgs_only_formal_parameters
           (Some [Literal "y" (VNum 1); Literal "other" (VNum 2)])
           (Some ["y"%string]) Samples.external_y "y"%string).
  vm_compute. eexists. reflexivity.
Defined.

Lemma buildJobArgs_explicit_over_fallback_witness :
  buildJobArgs (Some [Literal "y" (VNum 1)]) (Some ["y"%string; "z"%string])
    Samples.external_y !! "y"%string
  = Some (VNum 1).
Proof.
  refine (proj1 (buildJobArgs_explicit_over_fallback [Literal "y" (VNum 1)]
                   ["y"%string; "z"%string] Samples.external_y "y"%string _ _)).
  - intros [H|H]%elem_of_cons; [discriminate|].
    apply list_elem_of_singleton in H. discriminate.
  - vm_compute. apply list_elem_of_here.
Defined.

Lemma buildJobArgs_last_entry_wins_witness :
  buildJobArgs (Some ([Literal "y" (VNum 1)] ++ [Literal "y" (VNum 2)]))
    (Some ["y"%string]) Samples.external_y !! "y"%string = Some (VNum 2)
  ∧ buildJobArgs (Some ([Literal "y" (VNum 1)] ++ [FromExternal "y" "y"]))
      (Some ["y"%string]) Samples.external_y !! "y"%string
    = Some (record_get (<["y"%string := VNum 7]> ∅) "y").
Proof.
  assert (Hplain : "__proto__"%string ∉ ["y"%string]).
  { intros H. apply list_elem_of_singleton in H. discriminate. }
  pose proof (buildJobArgs_last_entry_wins [Literal "y" (VNum 1)] ["y"%string]
                Samples.external_y "y"%string (list_elem_of_here _ _) Hplain) as [Hlit Hext].
  split; [apply Hlit | by apply Hext].
Defined.

Lemma resolve_arg_FromStepAt_out_of_range_witness :
  resolve_arg ["y"%string]
    {| opt_external := None; opt_previous := VUndefined;
       opt_steps := [Some (Samples.done_journal "marker")]; opt_index := 1 |}
    (∅, []) (FromStepAt "y" 1 "out")
  = (∅, []).
Proof.
  apply (resolve_arg_FromStepAt_out_of_range ["y"%string]
           {| opt_external := None; opt_previous := VUndefined;
              opt_steps := [Some (Samples.done_journal "marker")]; opt_index := 1 |}).
  left. simpl. lia.
Defined.

Lemma resolve_arg_previous_is_minus_one_witness :
  resolve_arg ["y"%string]
    {| opt_external := None; opt_previous := VNum 1;
       opt_steps := [Some (Samples.done_journal "marker")]; opt_index := 1 |}
    (∅, []) (FromPreviousStep "y" "out")
  = resolve_arg ["y"%string]
      {| opt_external := None; opt_previous := VNum 1;
         opt_steps := [Some (Samples.done_journal "marker")]; opt_index := 1 |}
      (∅, []) (FromStepAt "y" (-1) "out").
Proof.
  apply (resolve_arg_previous_is_minus_one ["y"%string]
           {| opt_external := None; opt_previous := VNum 1;
              opt_steps := [Some (Samples.done_journal "marker")]; opt_index := 1 |}).
  - reflexivity.
  - reflexivity.
Defined.

Lemma executeJobLine_missing_arguments_witness :
  lacking (<["y"%string := VNum 7]> ∅) ["x"%string; "y"%string; "z"%string]
  = ["x"%string; "z"%string]
  ∧ executeJobLine Samples.registry
      (ByValue {| line_name := "line";
                  line_args := Some ["x"%string; "y"%string; "z"%string];
                  line_steps := [Samples.plain "reader"] |})
      (Some {| opts_args := Some (<["y"%string := VNum 7]> ∅);
               opts_previousJobLineJournal := None |})
    = {| run_invoked := [];
         run_outcome :=
           Exited (ArgsMissing (lacking (<["y"%string := VNum 7]> ∅)
                                  ["x"%string; "y"%string; "z"%string])) |}.
Proof.
  split; [vm_compute; reflexivity|].
  apply (executeJobLine_missing_arguments Samples.registry _ _
           {| line_name := "line"; line_args := Some ["x"%string; "y"%string; "z"%string];
              line_steps := [Samples.plain "reader"] |}
           ["x"%string; "y"%string; "z"%string] (<["y"%string := VNum 7]> ∅)).
  - reflexivity.
  - reflexivity.
  - intros Hin. repeat (apply elem_of_cons in Hin as [Hin|Hin]; [discriminate|]).
    by apply elem_of_nil in Hin.
  - reflexivity.
  - vm_compute. discriminate.
Defined.

Lemma executeJobLine_without_arguments_witness :
  executeJobLine Samples.registry (ByValue Samples.line_with_y) None
  = {| run_invoked := []; run_outcome := Exited (ArgsMissing ["y"%string]) |}
  ∧ ∀ o, opts_args o = None →
      executeJobLine Samples.registry (ByValue Samples.line_with_y) (Some o)
      = {| run_invoked := []; run_outcome := Threw TypeError |}.
Proof.
  apply (executeJobLine_without_arguments Samples.registry
           (ByValue Samples.line_with_y) Samples.line_with_y ["y"%string]).
  - reflexivity.
  - reflexivity.
  - discriminate.
Defined.

Lemma executeJobLine_journal_header_witness :
  ∃ journal,
    run_outcome (executeJobLine Samples.registry (ByValue Samples.line_with_y)
                   Samples.y_is_7) = Returned journal
    ∧ ∃ jobLine,
        find_line Samples.registry (ByValue Samples.line_with_y) = Some jobLine
        ∧ jlj_name journal = line_name jobLine
        ∧ (∀ p v, jlj_input journal !! p = Some v →
             v ≠ VUndefined
             ∧ ∃ argKeys o args,
                 line_args jobLine = Some argKeys ∧ p ∈ argKeys
                 ∧ Samples.y_is_7 = Some o ∧ opts_args o = Some args
                 ∧ record_get args p = v)
        ∧ (∀ argKeys p, line_args jobLine = Some argKeys → p ∈ argKeys →
             is_Some (jlj_input journal !! p)).
Proof.
  eexists. split; [vm_compute; reflexivity|].
  apply (executeJobLine_journal_header Samples.registry (ByValue Samples.line_with_y)
           Samples.y_is_7).
  - intros jobLine argKeys [= <-] [= <-]. intros Hin.
    apply list_elem_of_singleton in Hin. discriminate.
  - vm_compute. reflexivity.
Defined.

Lemma executeJobLine_done_signal_witness :
  ∃ journal,
    run_outcome (executeJobLine Samples.registry
                   (ByValue (Samples.line_of [Samples.plain "marker"; Samples.plain "stopper";
                                              Samples.plain "reader"]))
                   Samples.no_options) = Returned journal
    ∧ length (jlj_steps journal) = 2.
Proof.
  destruct (executeJobLine_done_signal Samples.registry
              (ByValue (Samples.line_of [Samples.plain "marker"; Samples.plain "stopper";
                                         Samples.plain "reader"]))
              Samples.no_options 1
              {| inv_job := "stopper"; inv_ctx := ∅; inv_args := ∅;
                 inv_run := job_executor Samples.stopper ∅ ∅ |})
    as (_ & journal & Hret & Hlen & _).
  - vm_compute. reflexivity.
  - reflexivity.
  - by exists journal.
Defined.

Lemma executeJobLine_journal_records_calls_witness :
  ∃ journal,
    run_outcome (executeJobLine Samples.registry (ByValue Samples.three_steps)
                   Samples.no_options) = Returned journal
    ∧ length (jlj_steps journal) = 2
    ∧ Forall is_Some (jlj_steps journal).
Proof.
  eexists. split; [vm_compute; reflexivity|]. split; [reflexivity|].
  eapply (executeJobLine_journal_records_calls Samples.registry
            (ByValue Samples.three_steps) Samples.no_options).
  vm_compute. reflexivity.
Defined.

Lemma executeJobLine_runs_to_the_end_witness :
  length (run_invoked (executeJobLine Samples.registry (ByValue Samples.mark_then_read)
                         Samples.no_options)) = 2
  ∧ ∃ journal,
      run_outcome (executeJobLine Samples.registry (ByValue Samples.mark_then_read)
                     Samples.no_options) = Returned journal
      ∧ jlj_status journal = Some Done
      ∧ length (jlj_steps journal) = 2
      ∧ Forall done_cell (jlj_steps journal).
Proof.
  apply (executeJobLine_runs_to_the_end Samples.registry (ByValue Samples.mark_then_read)
           Samples.no_options Samples.mark_then_read ∅).
  - reflexivity.
  - reflexivity.
  - reflexivity.
  - intros step Hin.
    apply elem_of_cons in Hin as [->|Hin];
      [|apply elem_of_cons in Hin as [->|Hin]; [|by apply elem_of_nil in Hin]].
    + exists Samples.marker. split; [reflexivity|]. intros ctx args. by eexists.
    + exists Samples.reader. split; [reflexivity|]. intros ctx args. by eexists.
Defined.

Lemma executeJobLine_thrown_errors_witness :
  (JobMissing "ghost" = TypeError
   ∧ run_invoked (executeJobLine Samples.registry
                    (ByValue (Samples.line_of [Samples.plain "ghost"]))
                    Samples.no_options) = [])
  ∨ ∃ jobLine step,
      find_line Samples.registry (ByValue (Samples.line_of [Samples.plain "ghost"]))
      = Some jobLine
      ∧ step ∈ line_steps jobLine
      ∧ JobMissing "ghost" = JobMissing (step_name step)
      ∧ jobs Samples.registry !! step_name step = None.
Proof.
  apply (executeJobLine_thrown_errors Samples.registry
           (ByValue (Samples.line_of [Samples.plain "ghost"])) Samples.no_options).
  reflexivity.
Defined.

Lemma executeJobLine_calls_follow_steps_witness :
  ∃ jobLine step,
    find_line Samples.registry (ByValue Samples.three_steps) = Some jobLine
    ∧ line_steps jobLine !! 1 = Some step
    ∧ call_of_step Samples.registry step
        {| inv_job := "failing"; inv_ctx := ∅; inv_args := ∅;
           inv_run := job_executor Samples.failing ∅ ∅ |}.
Proof.
  apply (executeJobLine_calls_follow_steps Samples.registry (ByValue Samples.three_steps)
           Samples.no_options 1).
  vm_compute. reflexivity.
Defined.

Lemma executeJobLine_contexts_empty_witness :
  run_invoked (executeJobLine Samples.registry (ByValue Samples.mark_then_read)
                 Samples.no_options) ≠ []
  ∧ Forall (λ c, inv_ctx c = ∅)
      (run_invoked (executeJobLine Samples.registry (ByValue Samples.mark_then_read)
                      Samples.no_options)).
Proof.
  split; [vm_compute; discriminate|].
  apply Forall_forall. intros c Hc.
  by apply (executeJobLine_contexts_empty Samples.registry (ByValue Samples.mark_then_read)
              Samples.no_options).
Defined.


